(** * Amulet-Core: chunk palette, section codec, schematic and clone

    A shallow embedding of
    - [amulet/level/interfaces/chunk/anvil/anvil_1444.py]
      ([Anvil1444Interface]: [minor_is_valid], [_decode_palette],
      [_encode_palette], [_decode_blocks], [_encode_blocks]),
    - [amulet/structure_interface/schematic/schematic.py]
      ([SchematicReader.__init__], [SchematicWriter.close]),
    - [amulet/operations/clone.py] ([clone]),
    together with the properties the specification states about them.

    Python values are modelled as follows: [int] is [Z]; a fixed-width numpy
    integer is a [Z] with its wrap-around written out; [str] is [string];
    a [dict] is a [gmap] where only its content matters and an association
    list where iteration order matters; a raised exception is the [Raise]
    branch of [result]. *)

From Stdlib Require Import Ascii ZArith Lia.
From stdpp Require Import gmap strings list fin_maps sorting countable.

Local Open Scope Z_scope.

(** ** Exceptions and results *)

(** The exception classes the modelled code can raise, with the two error
    kinds of the specification ([FormatError], [UnsupportedVersionError])
    that no modelled function raises; they are listed so that statements
    about them can be written. *)
Inductive exn :=
  | KeyError (key : string)
  | ValueError (msg : string)
  | TypeError
  | AttributeError
  | IndexError
  | Exception (msg : string)
  | FormatError
  | UnsupportedVersionError.

Inductive result (A : Type) :=
  | Ok (a : A)
  | Raise (e : exn).
Arguments Ok {A} a.
Arguments Raise {A} e.

#[global] Instance result_ret : MRet result := λ A a, Ok a.
#[global] Instance result_bind : MBind result := λ A B f r,
  match r with
  | Ok a => f a
  | Raise e => Raise e
  end.
#[global] Instance result_fmap : FMap result := λ A B f r,
  match r with
  | Ok a => Ok (f a)
  | Raise e => Raise e
  end.

Definition raises {A} (r : result A) : Prop := ∃ e, r = Raise e.

(** [for x in l: acc = f(acc, x)], stopping at the first exception. *)
Fixpoint for_each {A S} (f : S → A → result S) (l : list A) (s : S) : result S :=
  match l with
  | [] => Ok s
  | x :: l' => s' ← f s x; for_each f l' s'
  end.

(** ** NBT tags

    The tag classes of [amulet_nbt] that the modelled code touches.
    A [TAG_Compound] is a string-keyed dictionary. *)
#[warnings="-register-all"]
Inductive tag :=
  | TAG_Short (n : Z)
  | TAG_String (s : string)
  | TAG_Byte_Array (a : list Z)
  | TAG_Long_Array (a : list Z)
  | TAG_List (l : list tag)
  | TAG_Compound (m : gmap string tag).

Fixpoint tag_size (t : tag) : nat :=
  match t with
  | TAG_Short _ | TAG_String _ | TAG_Byte_Array _ | TAG_Long_Array _ => 1%nat
  | TAG_List l => S (foldr (λ t n, tag_size t + n)%nat 0%nat l)
  | TAG_Compound m => S (map_fold (λ _ t n, tag_size t + n)%nat 0%nat m)
  end.

(** An injection of tags into stdpp's general trees; it gives tags (and
    blocks, below) a decidable equality and a computable key. *)
Fixpoint tag_enc (t : tag) : gen_tree (string + list Z) :=
  match t with
  | TAG_Short n => GenNode 3 [GenLeaf (inr [n])]
  | TAG_String s => GenLeaf (inl s)
  | TAG_Byte_Array a => GenNode 4 [GenLeaf (inr a)]
  | TAG_Long_Array a => GenLeaf (inr a)
  | TAG_List l => GenNode 0 (tag_enc <$> l)
  | TAG_Compound m =>
      GenNode 1 ((λ kv, GenNode 2 [GenLeaf (inl kv.1); kv.2])
                   <$> map_to_list (tag_enc <$> m))
  end.

Lemma tag_size_elem (l : list tag) (t : tag) :
  t ∈ l → (tag_size t < tag_size (TAG_List l))%nat.
Proof.
  induction 1 as [t l|t t' l _ IH]; simpl in *; lia.
Qed.

Lemma tag_size_lookup (m : gmap string tag) (k : string) (t : tag) :
  m !! k = Some t → (tag_size t < tag_size (TAG_Compound m))%nat.
Proof.
  intros Hk. simpl.
  rewrite (map_fold_delete_L _ _ k t m); [lia|intros; lia|done].
Qed.

Lemma tag_ind' (P : tag → Prop) :
  (∀ n, P (TAG_Short n)) →
  (∀ s, P (TAG_String s)) →
  (∀ a, P (TAG_Byte_Array a)) →
  (∀ a, P (TAG_Long_Array a)) →
  (∀ l, Forall P l → P (TAG_List l)) →
  (∀ m, map_Forall (λ _, P) m → P (TAG_Compound m)) →
  ∀ t, P t.
Proof.
  intros Hz Hs Hb Ha Hl Hm t.
  remember (tag_size t) as n eqn:Hn.
  revert t Hn. induction n as [n IH] using lt_wf_ind. intros t ->.
  destruct t as [z|s|b|a|l|m]; auto.
  - apply Hl, list.Forall_forall. intros t Ht.
    eapply IH; [|reflexivity]. by apply tag_size_elem.
  - apply Hm. intros k t Ht.
    eapply IH; [|reflexivity]. by eapply tag_size_lookup.
Qed.

Lemma tag_enc_inj : Inj (=) (=) tag_enc.
Proof.
  intros t. induction t as [n|s|b|a|l IH|m IH] using tag_ind';
    intros [n'|s'|b'|a'|l'|m'] Heq; simpl in Heq; try discriminate.
  - by simplify_eq.
  - by simplify_eq.
  - by simplify_eq.
  - by simplify_eq.
  - f_equal. injection Heq as Heq. revert l' Heq.
    induction IH as [|t l Ht _ IHl]; intros [|t' l'] Heq; simplify_eq/=; [done|].
    f_equal; [by apply Ht|by apply IHl].
  - f_equal. injection Heq as Heq.
    apply (list_fmap_eq_inj _) in Heq.
    + assert (tag_enc <$> m = tag_enc <$> m') as Hmm
        by (apply map_to_list_inj; by rewrite Heq).
      apply map_eq. intros k.
      pose proof (f_equal (.!! k) Hmm) as Hk. simpl in Hk.
      rewrite !lookup_fmap in Hk.
      destruct (m !! k) as [t|] eqn:Ht, (m' !! k) as [t'|] eqn:Ht';
        simplify_eq/=; [|done].
      f_equal. by apply (IH k t Ht).
    + intros [k1 v1] [k2 v2] ?. by simplify_eq/=.
Qed.

#[global] Instance tag_eq_dec : EqDecision tag.
Proof.
  refine (λ t1 t2, cast_if (decide (tag_enc t1 = tag_enc t2)));
    abstract (by first [apply tag_enc_inj | intros ->]).
Defined.

(** [for x in l: out.append(f(x))], stopping at the first exception. *)
Fixpoint traverse {A B} (f : A → result B) (l : list A) : result (list B) :=
  match l with
  | [] => Ok []
  | x :: l' => y ← f x; ys ← traverse f l'; Ok (y :: ys)
  end.

(** ** Strings *)

(** The part of [s] before the first [sep] and the part after it, when [sep]
    occurs in [s]. *)
Fixpoint split_first (sep : ascii) (s : string) : option (string * string) :=
  match s with
  | EmptyString => None
  | String c s' =>
      if decide (c = sep) then Some (EmptyString, s')
      else '(a, b) ← split_first sep s'; Some (String c a, b)
  end.

(** [s.split(sep, 1)] for a one-character separator. *)
Definition str_split1 (sep : ascii) (s : string) : list string :=
  match split_first sep s with
  | Some (a, b) => [a; b]
  | None => [s]
  end.

Fixpoint str_contains (c : ascii) (s : string) : bool :=
  match s with
  | EmptyString => false
  | String c' s' => bool_decide (c' = c) || str_contains c s'
  end.

Definition not_enough_values : exn := ValueError "not enough values to unpack".

(** [a, b = l]: tuple unpacking of a list into two names. *)
Definition unpack2 (l : list string) : result (string * string) :=
  match l with
  | [a; b] => Ok (a, b)
  | [] | [_] => Raise not_enough_values
  | _ => Raise (ValueError "too many values to unpack")
  end.

Definition colon : ascii := ":"%char.

(** ** Blocks *)

(** Modelled from the spec: the class [amulet.api.block.Block], which is not
    among the sources. Section 3 of the specification gives it as an
    immutable value of a namespace, a base name and a mapping of property
    names to values, equal when these fields are equal. The property values
    are the NBT tags that [_decode_palette] stores in it. *)
Record Block := mkBlock {
  namespace : string;
  base_name : string;
  properties : gmap string tag;
}.

Definition block_enc (b : Block) : gen_tree (string + list Z) :=
  GenNode 0 [GenLeaf (inl (namespace b)); GenLeaf (inl (base_name b));
             tag_enc (TAG_Compound (properties b))].

Lemma block_enc_inj : Inj (=) (=) block_enc.
Proof.
  intros [n1 b1 p1] [n2 b2 p2] Heq. unfold block_enc in Heq.
  cbn [namespace base_name properties] in Heq.
  remember (tag_enc (TAG_Compound p1)) as e1 eqn:E1.
  remember (tag_enc (TAG_Compound p2)) as e2 eqn:E2.
  injection Heq as -> -> ->. rewrite E1 in E2.
  apply tag_enc_inj in E2. by simplify_eq.
Qed.

#[global] Instance Block_eq_dec : EqDecision Block.
Proof.
  refine (λ b1 b2, cast_if (decide (block_enc b1 = block_enc b2)));
    abstract (by first [apply block_enc_inj | intros ->]).
Defined.

(** A total order on blocks, by a numeric key of their fields. The order
    that [Block] itself defines is not among the sources; the functions
    below take the order as a parameter, and this one instantiates it in
    the examples. *)
Definition block_key (b : Block) : positive := encode (block_enc b).

Definition block_key_le : relation Block :=
  λ b1 b2, (block_key b1 ≤ block_key b2)%positive.

#[global] Instance block_key_le_dec : RelDecision block_key_le :=
  λ b1 b2, decide (block_key b1 ≤ block_key b2)%positive.

Lemma block_key_inj : Inj (=) (=) block_key.
Proof.
  intros b1 b2 Heq. unfold block_key in Heq.
  by apply block_enc_inj, (inj encode).
Qed.

#[global] Instance block_key_le_total : TotalOrder block_key_le.
Proof.
  unfold block_key_le. split; [split; [split|]|].
  - intros b. lia.
  - intros b1 b2 b3. lia.
  - intros b1 b2 H1 H2. apply block_key_inj. lia.
  - intros b1 b2. unfold strict.
    destruct (decide (block_key b1 = block_key b2)) as [Heq|Hne].
    + right. left. by apply block_key_inj.
    + destruct (decide (block_key b1 < block_key b2)%positive).
      * left. lia.
      * right. right. lia.
Qed.

(** [Block(namespace="minecraft", base_name="air")] *)
Definition air : Block := mkBlock "minecraft" "air" ∅.

(** ** Palette entries: [_decode_palette] and [_encode_palette] *)

Definition getitem (m : gmap string tag) (key : string) : result tag :=
  match m !! key with
  | Some t => Ok t
  | None => Raise (KeyError key)
  end.

(** One iteration of the loop of [_decode_palette]. *)
Definition decode_palette_entry (entry : tag) : result Block :=
  match entry with
  | TAG_Compound m =>
      name ← getitem m "Name";
      match name with
      | TAG_String s =>
          '(namespace, base_name) ← unpack2 (str_split1 colon s);
          match default (TAG_Compound ∅) (m !! "Properties") with
          | TAG_Compound properties =>
              Ok (mkBlock namespace base_name properties)
          | _ => Raise TypeError
          end
      | _ => Raise AttributeError
      end
  | _ => Raise TypeError
  end.

Definition _decode_palette (palette : tag) : result (list Block) :=
  match palette with
  | TAG_List entries => traverse decode_palette_entry entries
  | _ => Raise TypeError
  end.

(** One iteration of the loop of [_encode_palette]. *)
Definition encode_palette_entry (block : Block) : tag :=
  TAG_Compound
    (<["Properties" := TAG_Compound (properties block)]>
       (<["Name" := TAG_String (namespace block +:+ ":" +:+ base_name block)]> ∅)).

Definition _encode_palette (blockstates : list Block) : tag :=
  TAG_List (encode_palette_entry <$> blockstates).

(** ** Version range: [minor_is_valid] *)

Definition minor_is_valid (key : Z) : bool :=
  (1444 <=? key) && (key <? 1466).

(** ** numpy

    [numpy.unique(ar, return_inverse=True)] on a one-dimensional array:
    the array is sorted, the first element of every run of equal elements is
    kept ([mask[1:] = aux[1:] != aux[:-1]]), and [inverse[i]] is the position
    of [ar[i]] among the kept elements. The order is that of the elements'
    [<] and the test that of their [!=]. *)
Section np_unique.
Context {A : Type} `{!EqDecision A} (R : relation A) `{!RelDecision R}.

Fixpoint keep_changes (prev : A) (l : list A) : list A :=
  match l with
  | [] => []
  | x :: l' =>
      if decide (x = prev) then keep_changes x l'
      else x :: keep_changes x l'
  end.

Definition uniq_adjacent (l : list A) : list A :=
  match l with
  | [] => []
  | x :: l' => x :: keep_changes x l'
  end.

Fixpoint index_of (x : A) (l : list A) : nat :=
  match l with
  | [] => 0%nat
  | y :: l' => if decide (x = y) then 0%nat else S (index_of x l')
  end.

Definition np_unique (ar : list A) : list A * list nat :=
  let u := uniq_adjacent (merge_sort R ar) in
  (u, (λ x, index_of x u) <$> ar).
End np_unique.

(** A three-dimensional [numpy.ndarray] in C order: its shape and its
    elements, the last axis varying fastest. *)
Record ndarray (A : Type) := mkArray {
  shape : nat * nat * nat;
  data : list A;
}.
Arguments mkArray {A} shape data.
Arguments shape {A} _.
Arguments data {A} _.

Definition size3 (s : nat * nat * nat) : nat :=
  let '(d0, d1, d2) := s in (d0 * d1 * d2)%nat.

Definition wf_array {A} (a : ndarray A) : Prop :=
  length (data a) = size3 (shape a).

(** The flat position of a multi-index, and back. *)
Definition ravel_index (s i : nat * nat * nat) : nat :=
  let '(_, d1, d2) := s in
  let '(i0, i1, i2) := i in ((i0 * d1 + i1) * d2 + i2)%nat.

Definition unravel_index (s : nat * nat * nat) (t : nat) : nat * nat * nat :=
  let '(_, d1, d2) := s in
  (t / (d1 * d2), (t / d2) mod d1, t mod d2)%nat.

Definition in_shape (s i : nat * nat * nat) : Prop :=
  let '(d0, d1, d2) := s in
  let '(i0, i1, i2) := i in (i0 < d0 ∧ i1 < d1 ∧ i2 < d2)%nat.

(** [a[i0, i1, i2]] *)
Definition item {A} `{!Inhabited A} (a : ndarray A) (i : nat * nat * nat) : A :=
  data a !!! ravel_index (shape a) i.

(** Component [n] of a triple (an axis number is 0, 1 or 2). *)
Definition axis {T} (n : nat) (v : T * T * T) : T :=
  let '(v0, v1, v2) := v in
  match n with
  | 0%nat => v0
  | 1%nat => v1
  | _ => v2
  end.

(** The index [j] of the source with [j[axes[n]] = i[n]] for every [n]. *)
Definition source_index (axes i : nat * nat * nat) : nat * nat * nat :=
  let '(p0, p1, p2) := axes in
  let '(i0, i1, i2) := i in
  let pick (m : nat) :=
    if decide (p0 = m) then i0 else if decide (p1 = m) then i1 else i2 in
  (pick 0%nat, pick 1%nat, pick 2%nat).

(** [numpy.transpose(a, axes)]: [result.shape[n] = a.shape[axes[n]]] and
    [result[i] = a[j]] with [j[axes[n]] = i[n]]. The result is materialised
    in C order. *)
Definition transpose {A} `{!Inhabited A}
    (a : ndarray A) (axes : nat * nat * nat) : ndarray A :=
  let '(p0, p1, p2) := axes in
  let s := (axis p0 (shape a), axis p1 (shape a), axis p2 (shape a)) in
  mkArray s
    ((λ t, item a (source_index axes (unravel_index s t))) <$> seq 0 (size3 s)).

(** [flat.reshape(shape)] *)
Definition reshape {A} (flat : list A) (s : nat * nat * nat) : result (ndarray A) :=
  if decide (length flat = size3 s) then Ok (mkArray s flat)
  else Raise (ValueError "cannot reshape array").

(** [a.ravel()] *)
Definition ravel {A} (a : ndarray A) : list A := data a.

(** Element-wise application, as in [a + n] or [a & m]. *)
Definition amap {A B} (f : A → B) (a : ndarray A) : ndarray B :=
  mkArray (shape a) (f <$> data a).

(** [table[i]] for an integer [i]; a negative [i] counts from the end. *)
Definition getitem_int {A} (table : list A) (i : Z) : result A :=
  let j := if decide (i < 0) then i + Z.of_nat (length table) else i in
  if decide (j < 0) then Raise IndexError
  else match table !! Z.to_nat j with
       | Some x => Ok x
       | None => Raise IndexError
       end.

(** [table[a]]: indexing a one-dimensional array by an index array. *)
Definition np_take {A} (table : list A) (a : ndarray Z) : result (ndarray A) :=
  d ← traverse (getitem_int table) (data a);
  Ok (mkArray (shape a) d).

Definition uint32 (z : Z) : Z := z mod 2 ^ 32.

(** [x.bit_length()]: the number of binary digits of [abs(x)]. *)
Definition bit_length (x : Z) : Z :=
  match x with
  | Z0 => 0
  | Zpos p | Zneg p => Z.pos (Pos.size p)
  end.

(** [len(l)] as a Python integer. *)
Definition len {A} (l : list A) : Z := Z.of_nat (length l).

(** The bits per entry that [_decode_blocks] passes to [decode_long_array]
    for a section palette of [n] entries. *)
Definition bits_per_entry (n : Z) : Z := Z.max 4 (bit_length (n - 1)).

(** ** [Anvil1444Interface]: sections

    Three things the two methods use are not among the sources and are
    parameters here: the order of [Block] values (their [<], by which
    [numpy.unique] sorts), and the two functions
    [amulet.utils.world_utils.decode_long_array] and [encode_long_array].
    [long_array_format] is [self._features["long_array_format"]], which
    [Anvil1444Interface.__init__] sets to ["compact"] and a subclass may
    change. *)
Section anvil_1444.
Context (block_le : relation Block) `{!RelDecision block_le}.
Context (decode_long_array : list Z → Z → Z → bool → result (list Z)).
Context (encode_long_array : list Z → bool → Z → list Z).
Context (long_array_format : string).

Definition section_shape : nat * nat * nat := (16, 16, 16)%nat.

(** The state of the loop of [_decode_blocks]: [blocks] and [palette]. *)
Definition decode_state : Type := gmap Z (ndarray Z) * list Block.

(** Lines 86 to 99, and the [reshape] of line 101: what one iteration of the
    loop of [_decode_blocks] reads from its section, which is nothing when
    the section has no [Palette]. [section.pop] also removes the two entries
    from the caller's section; that effect on the input is not tracked. *)
Definition read_section (section : gmap string tag)
    : result (option (list Block * ndarray Z)) :=
  match section !! "Palette" with
  | None => Ok None
  | Some raw_palette =>
      section_palette ← _decode_palette raw_palette;
      decoded ←
        (if bool_decide (long_array_format = "compact")
            || bool_decide (long_array_format = "1.16") then
           block_states ← getitem section "BlockStates";
           match block_states with
           | TAG_Long_Array words =>
               d ← decode_long_array words 4096
                     (bits_per_entry (len section_palette))
                     (bool_decide (long_array_format = "compact"));
               Ok (uint32 <$> (d : list Z))
           | _ => Raise TypeError
           end
         else Raise (Exception "long_array_format") : result (list Z));
      arr ← reshape decoded section_shape;
      Ok (Some (section_palette, arr))
  end.

(** Lines 100 to 103: [blocks[cy]] is the section's array, shifted by the
    length of the palette so far and transposed, and the section's palette
    is appended to the palette. *)
Definition add_section (st : decode_state) (cy : Z)
    (section_palette : list Block) (arr : ndarray Z) : decode_state :=
  let '(blocks, palette) := st in
  (<[cy := transpose (amap (λ v, uint32 (v + len palette)) arr)
             (2, 0, 1)%nat]> blocks,
   palette ++ section_palette).

(** One iteration of the first loop of [_decode_blocks]. *)
Definition decode_section (st : decode_state) (entry : Z * gmap string tag)
    : result decode_state :=
  let '(cy, section) := entry in
  read ← read_section section;
  match read with
  | None => Ok st
  | Some (section_palette, arr) => Ok (add_section st cy section_palette arr)
  end.

(** Lines 82 to 103: the loop over the sections. *)
Definition decode_sections (chunk_sections : list (Z * gmap string tag))
    : result decode_state :=
  for_each decode_section chunk_sections (∅, [air]).

(** The palettes of the sections that have one, in the order of the
    sections: what the loop appends to the palette. *)
Fixpoint section_palettes (chunk_sections : list (Z * gmap string tag))
    : list (list Block) :=
  match chunk_sections with
  | [] => []
  | (_, section) :: rest =>
      match read_section section with
      | Ok (Some (section_palette, _)) =>
          section_palette :: section_palettes rest
      | _ => section_palettes rest
      end
  end.

(** Lines 109 and 110: [for cy in blocks: blocks[cy] = inverse[blocks[cy]]]. *)
Definition remap_blocks (inverse : list Z) (blocks : gmap Z (ndarray Z))
    : result (gmap Z (ndarray Z)) :=
  map_fold (λ cy arr acc,
              m ← acc; arr' ← np_take inverse arr; Ok (<[cy := arr']> m))
           (Ok ∅) blocks.

(** [_decode_blocks]: the value assigned to [chunk.blocks] and the
    returned palette. *)
Definition _decode_blocks (chunk_sections : list (Z * gmap string tag))
    : result (gmap Z (ndarray Z) * list Block) :=
  '(blocks, palette) ← decode_sections chunk_sections;
  let '(np_palette, inverse) := np_unique block_le palette in
  let inverse := (λ i, uint32 (Z.of_nat i)) <$> inverse in
  blocks ← remap_blocks inverse blocks;
  Ok (blocks, np_palette).

(** [len(sub_palette) == 1 and
     sub_palette[0]["Name"].value == "minecraft:air"] *)
Definition is_air_palette (sub_palette : tag) : bool :=
  match sub_palette with
  | TAG_List [TAG_Compound entry] =>
      match entry !! "Name" with
      | Some (TAG_String name) => bool_decide (name = "minecraft:air")
      | _ => false
      end
  | _ => false
  end.

(** One iteration of the loop of [_encode_blocks]. *)
Definition encode_section (blocks : gmap Z (ndarray Z)) (palette : list Block)
    (sections : gmap Z (gmap string tag)) (cy : Z)
    : result (gmap Z (gmap string tag)) :=
  match blocks !! cy with
  | None => Ok sections
  | Some sub_chunk =>
      let block_sub_array := ravel (transpose sub_chunk (1, 2, 0)%nat) in
      let '(sub_palette_, block_sub_array) := np_unique Z.le block_sub_array in
      let block_sub_array := Z.of_nat <$> block_sub_array in
      sub_blocks ← traverse (getitem_int palette) sub_palette_;
      let sub_palette := _encode_palette sub_blocks in
      if is_air_palette sub_palette then Ok sections
      else
        let section := default ∅ (sections !! cy) in
        let section :=
          if bool_decide (long_array_format = "compact") then
            <["BlockStates" :=
                TAG_Long_Array (encode_long_array block_sub_array true 4)]>
              section
          else if bool_decide (long_array_format = "1.16") then
            <["BlockStates" :=
                TAG_Long_Array (encode_long_array block_sub_array false 4)]>
              section
          else section in
        Ok (<[cy := <["Palette" := sub_palette]> section]> sections)
  end.

(** [_encode_blocks]: the [sections] dictionary after the call. *)
Definition _encode_blocks (sections : gmap Z (gmap string tag))
    (blocks : gmap Z (ndarray Z)) (palette : list Block) (cy_min cy_max : Z)
    : result (gmap Z (gmap string tag)) :=
  for_each (encode_section blocks palette)
           (seqZ cy_min (cy_max - cy_min)) sections.
End anvil_1444.

(** ** Schematic files: [SchematicWriter.close] and [SchematicReader] *)

Definition uint8 (z : Z) : Z := z mod 2 ^ 8.
Definition uint16 (z : Z) : Z := z mod 2 ^ 16.
Definition int16 (z : Z) : Z := (z + 2 ^ 15) mod 2 ^ 16 - 2 ^ 15.

(** [a[start::2]] on a three-dimensional array: every second plane along
    the first axis, from plane [start]. *)
Definition slice_axis0 {A} (start : nat) (a : ndarray A) : ndarray A :=
  let '(d0, d1, d2) := shape a in
  let planes := ((d0 - start + 1) / 2)%nat in
  let plane := (d1 * d2)%nat in
  mkArray (planes, d1, d2)
    (mjoin ((λ i, take plane (drop ((start + 2 * i) * plane) (data a)))
              <$> seq 0 planes)).

(** [a + b] for arrays whose shapes agree on the last two axes; an operand
    with one plane is repeated along the first axis, as numpy's broadcasting
    does. *)
Definition broadcast_add (a b : ndarray Z) : result (ndarray Z) :=
  let '(a0, a1, a2) := shape a in
  let '(b0, b1, b2) := shape b in
  if decide ((a1, a2) = (b1, b2)) then
    if decide (a0 = b0) then
      Ok (mkArray (shape a) (zip_with Z.add (data a) (data b)))
    else if decide (b0 = 1%nat) then
      Ok (mkArray (shape a)
            (mjoin ((λ i, zip_with Z.add
                            (take (a1 * a2) (drop (i * (a1 * a2)) (data a)))
                            (data b)) <$> seq 0 a0)))
    else if decide (a0 = 1%nat) then
      Ok (mkArray (shape b)
            (mjoin ((λ i, zip_with Z.add (data a)
                            (take (a1 * a2) (drop (i * (a1 * a2)) (data b))))
                      <$> seq 0 b0)))
    else Raise (ValueError "operands could not be broadcast together")
  else Raise (ValueError "operands could not be broadcast together").

(** [a + b] for one-dimensional arrays. *)
Definition broadcast_add1 (a b : list Z) : result (list Z) :=
  if decide (length a = length b) then Ok (zip_with Z.add a b)
  else match a, b with
       | _, [y] => Ok ((λ x, x + y) <$> a)
       | [x], _ => Ok ((λ y, x + y) <$> b)
       | _, _ => Raise (ValueError "operands could not be broadcast together")
       end.

(** [numpy.max(a)] *)
Definition np_max (a : ndarray Z) : result Z :=
  match data a with
  | [] => Raise (ValueError "zero-size array to reduction operation")
  | x :: l => Ok (foldr Z.max x l)
  end.

(** [amulet_nbt.TAG_Byte_Array(a)]: the elements of [a] in C order, each
    kept as the eight bits of a byte. *)
Definition byte_array (a : ndarray Z) : tag :=
  TAG_Byte_Array (uint8 <$> data a).

(** [numpy.concatenate([[lo], [hi]]).T.ravel()]: [lo[0], hi[0], lo[1], ...]. *)
Definition interleave (lo hi : list Z) : list Z :=
  mjoin (zip_with (λ x y, [x; y]) lo hi).

Record SchematicWriter := mkWriter {
  _materials : string;
  _data : gmap string tag;
  _entities : list tag;
  _block_entities : list tag;
  _blocks : ndarray Z;
  _block_data : ndarray Z;
}.

(** [SchematicWriter.__init__]; [selection_size] is
    [(selection.size_x, selection.size_y, selection.size_z)], which is also
    [selection.shape]. *)
Definition SchematicWriter_init (platform : string)
    (selection_size : nat * nat * nat) : result SchematicWriter :=
  materials ←
    (if bool_decide (platform = "java") then Ok "Alpha"
     else if bool_decide (platform = "bedrock") then Ok "Pocket"
     else Raise (Exception "not a supported platform for a schematic file")
       : result string);
  let '(size_x, size_y, size_z) := selection_size in
  Ok {| _materials := materials;
        _data :=
          <["Materials" := TAG_String materials]>
          (<["Length" := TAG_Short (int16 (Z.of_nat size_z))]>
          (<["Height" := TAG_Short (int16 (Z.of_nat size_y))]>
          (<["Width" := TAG_Short (int16 (Z.of_nat size_x))]>
          (<["TileTicks" := TAG_List []]> ∅))));
        _entities := [];
        _block_entities := [];
        _blocks := mkArray selection_size (replicate (size3 selection_size) 0);
        _block_data := mkArray selection_size (replicate (size3 selection_size) 0) |}.

(** [SchematicWriter.close]: the compound that is saved to the file. *)
Definition SchematicWriter_close (w : SchematicWriter) : result (gmap string tag) :=
  let d := <["Entities" := TAG_List (_entities w)]> (_data w) in
  let d := <["TileEntities" := TAG_List (_block_entities w)]> d in
  let d := <["Data" := byte_array (_block_data w)]> d in
  let d := <["Blocks" := byte_array (amap (λ b, uint8 (Z.land b 0xFF)) (_blocks w))]> d in
  m ← np_max (_blocks w);
  if decide (m > 0xFF) then
    let add_blocks := amap (λ b, Z.shiftr (Z.land b 0xF00) 8) (_blocks w) in
    packed ← broadcast_add (slice_axis0 0 add_blocks)
               (amap (λ b, uint16 (Z.shiftl b 4)) (slice_axis0 1 add_blocks));
    Ok (<["AddBlocks" := byte_array packed]> d)
  else Ok d.

(** Lines 36 to 57 of [SchematicReader.__init__], on the compound loaded from
    the file: the platform and the block array. *)
Definition SchematicReader_blocks (schematic : gmap string tag)
    : result (string * ndarray Z) :=
  platform ←
    match default (TAG_String "") (schematic !! "Materials") with
    | TAG_String "Alpha" => Ok "java"
    | TAG_String "Pocket" => Ok "bedrock"
    | _ => Raise (Exception "not a supported platform for a schematic file")
    end;
  width ← getitem schematic "Width";
  height ← getitem schematic "Height";
  length ← getitem schematic "Length";
  raw ← getitem schematic "Blocks";
  match width, height, length, raw with
  | TAG_Short w, TAG_Short h, TAG_Short l, TAG_Byte_Array bytes =>
      let blocks := uint16 <$> bytes in
      blocks ←
        match schematic !! "AddBlocks" with
        | Some (TAG_Byte_Array add_blocks) =>
            broadcast_add1 blocks
              ((λ n, uint16 (Z.shiftl n 8))
                 <$> interleave ((λ b, Z.land b 0xF) <$> add_blocks)
                       ((λ b, Z.shiftr (Z.land b 0xF0) 4) <$> add_blocks))
        | Some _ => Raise TypeError
        | None => Ok blocks
        end;
      if decide (0 ≤ w ∧ 0 ≤ h ∧ 0 ≤ l) then
        arr ← reshape (uint16 <$> blocks) (Z.to_nat w, Z.to_nat h, Z.to_nat l);
        Ok (platform, arr)
      else Raise (ValueError "negative dimensions are not allowed")
  | _, _, _, _ => Raise TypeError
  end.

(** ** [clone]

    The classes [World] and [Selection] are not among the sources; what
    [clone] uses of them is taken as parameters: the shape of a sub-box, the
    sub-chunk views that [world.get_sub_chunks] yields for a sub-box, and
    reading and assigning the [blocks] of such a view. A selection is the
    list of its sub-boxes. The world is the state that the statements of
    [clone] act on. *)
Section clone.
Context {World Box SubChunk BlockArray : Type}.
Context (box_shape : Box → Z * Z * Z).
Context (get_sub_chunks : World → Box → list SubChunk).
Context (get_blocks : World → SubChunk → BlockArray).
Context (set_blocks : World → SubChunk → BlockArray → World).

(** A statement: from the world before it to the world after it and its
    value or the exception it raised. *)
Definition stmt (A : Type) : Type := World → World * result A.

Definition pass : stmt () := λ w, (w, Ok ()).
Definition raise {A} (e : exn) : stmt A := λ w, (w, Raise e).
Definition seq_stmt {A B} (c : stmt A) (k : A → stmt B) : stmt B := λ w,
  match c w with
  | (w', Ok a) => k a w'
  | (w', Raise e) => (w', Raise e)
  end.
Definition read {A} (f : World → A) : stmt A := λ w, (w, Ok (f w)).
Definition write (f : World → World) : stmt () := λ w, (f w, Ok ()).

(** [for x in l: body(x)] *)
Fixpoint for_stmt {A} (l : list A) (body : A → stmt ()) : stmt () :=
  match l with
  | [] => pass
  | x :: l' => seq_stmt (body x) (λ _, for_stmt l' body)
  end.

Definition source_target_mismatch : exn :=
  Exception "Source Box and Target Box must have the same amount of subboxes".
Definition shape_mismatch : exn :=
  Exception "The shape of the selections needs to be the same".

(** The body of the loop of lines 14 to 16. *)
Definition check_shape (pair : Box * Box) : stmt () :=
  let '(source, target) := pair in
  if decide (box_shape source ≠ box_shape target)
  then raise shape_mismatch else pass.

(** Line 24: [target_selection.blocks = source_selection.blocks]. *)
Definition copy_sub_chunk (pair : SubChunk * SubChunk) : stmt () :=
  let '(source_selection, target_selection) := pair in
  seq_stmt (read (λ w, get_blocks w source_selection)) (λ blocks,
  write (λ w, set_blocks w target_selection blocks)).

(** The body of the loop of lines 18 to 24. *)
Definition copy_box (pair : Box * Box) : stmt () :=
  let '(source, target) := pair in
  seq_stmt (read (λ w, get_sub_chunks w source)) (λ source_generator,
  seq_stmt (read (λ w, get_sub_chunks w target)) (λ target_generator,
  for_stmt (zip source_generator target_generator) copy_sub_chunk)).

Definition clone (source_box target_box : list Box) : stmt () :=
  seq_stmt
    (if decide (length source_box ≠ length target_box)
     then raise source_target_mismatch else pass) (λ _,
  seq_stmt (for_stmt (zip source_box target_box) check_shape) (λ _,
  for_stmt (zip source_box target_box) copy_box)).

(** The two sub-boxes of a pair have different shapes. *)
Definition shapes_differ (pair : Box * Box) : Prop :=
  box_shape pair.1 ≠ box_shape pair.2.
End clone.

(** ** Example inputs *)

Definition stone : Block := mkBlock "minecraft" "stone" ∅.

Definition oak_log : Block :=
  mkBlock "minecraft" "oak_log" {[ "axis" := TAG_String "y" ]}.

Definition tnt : Block := mkBlock "minecraft" "tnt" ∅.

(** A block whose namespace holds a [:]. *)
Definition colon_block : Block := mkBlock "a:b" "c" ∅.

(** A palette entry whose name has no [:]. *)
Definition stone_entry : tag := TAG_Compound {[ "Name" := TAG_String "stone" ]}.

(** A stand-in for [decode_long_array]: the indices 0, 1, 0, 1, ... *)
Definition alternating_decoder
    (words : list Z) (size bits : Z) (dense : bool) : result (list Z) :=
  Ok ((λ i, Z.of_nat i mod 2) <$> seq 0 (Z.to_nat size)).

(** A stand-in for [encode_long_array]: one word per entry. *)
Definition plain_encoder (values : list Z) (dense : bool) (min_bits : Z)
    : list Z := values.

(** The array whose items are their own flat positions. *)
Definition counting_array : ndarray nat := mkArray (16, 16, 16)%nat (seq 0 4096).

(** The sections of a chunk whose palette is [air, stone]: all air at
    vertical index 3 and all stone at vertical index 4. *)
Definition example_blocks : gmap Z (ndarray Z) :=
  {[ 3 := mkArray (16, 16, 16)%nat (replicate 4096 0);
     4 := mkArray (16, 16, 16)%nat (replicate 4096 1) ]}.

(** A chunk of one section, at vertical index 0, with the palette
    [air, tnt]. *)
Definition tnt_sections : list (Z * gmap string tag) :=
  [(0, {[ "Palette" := _encode_palette [air; tnt];
          "BlockStates" := TAG_Long_Array [] ]})].

(** A chunk of one section, at vertical index 0, with the palette
    [stone, air]. *)
Definition example_sections : list (Z * gmap string tag) :=
  [(0, {[ "Palette" := _encode_palette [stone; air];
          "BlockStates" := TAG_Long_Array [] ]})].

(** The entries of the saved compound other than [AddBlocks]. *)
Definition close_base (w : SchematicWriter) : gmap string tag :=
  <["Blocks" := byte_array (amap (λ b, uint8 (Z.land b 0xFF)) (_blocks w))]>
    (<["Data" := byte_array (_block_data w)]>
       (<["TileEntities" := TAG_List (_block_entities w)]>
          (<["Entities" := TAG_List (_entities w)]> (_data w)))).

(** The block ids that the reader rebuilds from [Blocks] and [AddBlocks]. *)
Definition reader_ids (bytes : list Z) (add_blocks : option tag)
    : result (list Z) :=
  match add_blocks with
  | Some (TAG_Byte_Array add_blocks) =>
      broadcast_add1 (uint16 <$> bytes)
        ((λ n, uint16 (Z.shiftl n 8))
           <$> interleave ((λ b, Z.land b 0xF) <$> add_blocks)
                 ((λ b, Z.shiftr (Z.land b 0xF0) 4) <$> add_blocks))
  | Some _ => Raise TypeError
  | None => Ok (uint16 <$> bytes)
  end.

(** [f] applied to the items of a list two by two. *)
Fixpoint pairwise {A B} (f : A → A → B) (l : list A) : list B :=
  match l with
  | x :: y :: l' => f x y :: pairwise f l'
  | _ => []
  end.

(** ** The views that [clone] copies between *)

Section clone_views.
Context {World Box SubChunk BlockArray : Type}.
Context (get_sub_chunks : World → Box → list SubChunk).
Context (get_blocks : World → SubChunk → BlockArray).
Context (set_blocks : World → SubChunk → BlockArray → World).

(** The pairs of sub-chunk views that [clone] copies between, for the world
    it is called on: for every pair of sub-boxes, the views of the source
    paired with the views of the target, as [zip] pairs them. *)
Definition view_pairs (world : World) (source_box target_box : list Box)
    : list (SubChunk * SubChunk) :=
  flat_map (λ '(source, target),
              zip (get_sub_chunks world source) (get_sub_chunks world target))
           (zip source_box target_box).

(** The effect of line 24 on the world. *)
Definition assign_blocks (world : World) (pair : SubChunk * SubChunk) : World :=
  set_blocks world pair.2 (get_blocks world pair.1).
End clone_views.

(** ** [properties_to_string] *)

(** [sep.join(l)] *)
Fixpoint str_join (sep : string) (l : list string) : string :=
  match l with
  | [] => ""
  | [x] => x
  | x :: l' => x +:+ sep +:+ str_join sep l'
  end.

(** ["{}={}".format(key, value)], for a key and a value that are strings. *)
Definition format_property (item : string * string) : string :=
  item.1 +:+ "=" +:+ item.2.

(** [properties_to_string], on the items of a dictionary of strings in the
    order of its keys. *)
Definition properties_to_string (props : list (string * string)) : string :=
  str_join "," (format_property <$> props).

(** The items of a dictionary whose keys hold neither [=] nor [,] and whose
    values hold no [,]. *)
Definition plain_item (item : string * string) : Prop :=
  str_contains "="%char item.1 = false
  ∧ str_contains ","%char item.1 = false
  ∧ str_contains ","%char item.2 = false.

(** * Properties *)

(** ** The version range *)

(** C8: [minor_is_valid] holds exactly on the half-open range from 1444 to
    1466: version 1450 is accepted, and no version from 1466 on is. *)
Theorem minor_is_valid_range :
  (∀ key : Z, minor_is_valid key = true ↔ 1444 ≤ key < 1466)
  ∧ minor_is_valid 1450 = true
  ∧ (∀ key : Z, 1466 ≤ key → minor_is_valid key = false).
Proof.
  unfold minor_is_valid. split; [|split].
  - intros key. rewrite andb_true_iff, Z.leb_le, Z.ltb_lt. done.
  - reflexivity.
  - intros key Hkey. apply andb_false_iff. right. by apply Z.ltb_ge.
Qed.

(** ** Bits per entry *)

Lemma bit_length_pos (p : positive) :
  bit_length (Z.pos p) = Z.log2 (Z.pos p) + 1.
Proof.
  destruct p as [p|p|]; simpl; [| |done];
    by rewrite Pos2Z.inj_succ, Z.add_1_r.
Qed.

Lemma bit_length_pred (n : Z) : 1 ≤ n → bit_length (n - 1) = Z.log2_up n.
Proof.
  intros Hn. destruct (decide (n = 1)) as [->|Hne]; [done|].
  rewrite Z.log2_up_eqn by lia. change (Z.pred n) with (n - 1).
  assert (0 < n - 1) as Hpos by lia.
  destruct (n - 1) as [|p|p]; [lia| |lia].
  rewrite bit_length_pos. lia.
Qed.

(** [Z.log2_up n] is the ceiling of the binary logarithm of [n]: the least
    exponent [k] with [n ≤ 2 ^ k]. *)
Lemma log2_up_least (n : Z) :
  1 ≤ n →
  0 ≤ Z.log2_up n ∧ n ≤ 2 ^ Z.log2_up n
  ∧ ∀ k, 0 ≤ k → n ≤ 2 ^ k → Z.log2_up n ≤ k.
Proof.
  intros Hn. split; [apply Z.log2_up_nonneg|]. split.
  - destruct (decide (n = 1)) as [->|Hne]; [done|].
    apply Z.log2_up_spec. lia.
  - intros k Hk Hle.
    destruct (decide (n = 1)) as [->|Hne]; [done|].
    apply Z.log2_up_le_pow2; lia.
Qed.

(** C4: for a section palette of [n ≥ 1] entries, the bits per entry that
    decoding passes to the unpacker, [max(4, (n - 1).bit_length())], is
    [max(4, ceil(log2 n))], where [ceil(log2 n)] is the least [k ≥ 0] with
    [n ≤ 2 ^ k]. *)
Theorem bits_per_entry_ceil_log2 (n : Z) :
  1 ≤ n →
  ∃ c : Z,
    (0 ≤ c ∧ n ≤ 2 ^ c ∧ ∀ k, 0 ≤ k → n ≤ 2 ^ k → c ≤ k)
    ∧ bits_per_entry n = Z.max 4 c.
Proof.
  intros Hn. exists (Z.log2_up n). split; [by apply log2_up_least|].
  unfold bits_per_entry. by rewrite bit_length_pred.
Qed.

Lemma bits_per_entry_ceil_log2_witness :
  ∃ c : Z,
    (0 ≤ c ∧ 17 ≤ 2 ^ c ∧ ∀ k, 0 ≤ k → 17 ≤ 2 ^ k → c ≤ k)
    ∧ bits_per_entry 17 = Z.max 4 c.
Proof. apply (bits_per_entry_ceil_log2 17). lia. Defined.

(** ** Loops that may raise *)

Lemma traverse_Ok {A B} (f : A → result B) (l : list A) (ys : list B) :
  traverse f l = Ok ys ↔ Forall2 (λ x y, f x = Ok y) l ys.
Proof.
  revert ys. induction l as [|x l IH]; intros ys; simpl.
  - split; [intros [= <-]; constructor|by intros ->%Forall2_nil_inv_l].
  - split.
    + destruct (f x) as [y|e] eqn:Hx; simpl; [|done].
      destruct (traverse f l) as [ys'|e] eqn:Hl; simpl; [|done].
      intros [= <-]. constructor; [done|by apply IH].
    + intros (y & ys' & Hy & Hys & ->)%Forall2_cons_inv_l.
      apply IH in Hys. by rewrite Hy, Hys.
Qed.

Lemma traverse_Raise {A B} (f : A → result B) (l : list A) (e : exn) :
  traverse f l = Raise e → ∃ x, x ∈ l ∧ f x = Raise e.
Proof.
  induction l as [|x l IH]; simpl; [done|].
  destruct (f x) as [y|e'] eqn:Hx; simpl.
  - destruct (traverse f l) as [ys|e'] eqn:Hl; simpl; [done|].
    intros [= ->]. destruct IH as (x' & Hin & Hx'); [done|].
    exists x'. split; [by right|done].
  - intros [= ->]. exists x. split; [by left|done].
Qed.

Lemma traverse_raises {A B} (f : A → result B) (l : list A) (x : A) :
  x ∈ l → raises (f x) → raises (traverse f l).
Proof.
  intros Hin [e He]. induction l as [|x' l IH]; [by apply elem_of_nil in Hin|].
  simpl. apply elem_of_cons in Hin as [<-|Hin].
  - rewrite He. by exists e.
  - destruct (f x') as [y|e']; simpl; [|by eexists].
    destruct (IH Hin) as [e'' ->]. by eexists.
Qed.

Lemma traverse_app {A B} (f : A → result B) (l1 l2 : list A) :
  traverse f (l1 ++ l2) =
  ys1 ← traverse f l1; ys2 ← traverse f l2; Ok (ys1 ++ ys2).
Proof.
  induction l1 as [|x l1 IH]; simpl.
  - by destruct (traverse f l2).
  - destruct (f x) as [y|e]; simpl; [|done]. rewrite IH.
    destruct (traverse f l1) as [ys1|e]; simpl; [|done].
    by destruct (traverse f l2).
Qed.

Lemma traverse_length {A B} (f : A → result B) (l : list A) (ys : list B) :
  traverse f l = Ok ys → length ys = length l.
Proof. intros H%traverse_Ok. symmetry. by eapply Forall2_length. Qed.

(** ** Palette entries *)

Lemma split_first_app (namespace base_name : string) :
  str_contains colon namespace = false →
  split_first colon (namespace +:+ ":" +:+ base_name)
  = Some (namespace, base_name).
Proof.
  induction namespace as [|c s IH]; simpl; [done|].
  intros [Hc Hs]%orb_false_iff. apply bool_decide_eq_false in Hc.
  rewrite decide_False by done. by rewrite IH.
Qed.

Lemma split_first_None (s : string) :
  str_contains colon s = false → split_first colon s = None.
Proof.
  induction s as [|c s IH]; simpl; [done|].
  intros [Hc Hs]%orb_false_iff. apply bool_decide_eq_false in Hc.
  rewrite decide_False by done. by rewrite IH.
Qed.

Lemma split_first_Some (s a b : string) :
  split_first colon s = Some (a, b) →
  s = a +:+ ":" +:+ b ∧ str_contains colon a = false.
Proof.
  revert a. induction s as [|c s IH]; intros a; simpl; [done|].
  destruct (decide (c = colon)) as [->|Hc].
  - by intros [= <- <-].
  - destruct (split_first colon s) as [[a' b']|]; simpl; [|done].
    intros [= <- <-]. destruct (IH a' eq_refl) as [-> Ha']. split; [done|].
    simpl. rewrite Ha'. by rewrite bool_decide_eq_false_2.
Qed.

Lemma decode_encode_entry (block : Block) :
  str_contains colon (namespace block) = false →
  decode_palette_entry (encode_palette_entry block) = Ok block.
Proof.
  intros Hns. destruct block as [ns bn props]. simpl in *.
  unfold getitem.
  rewrite (lookup_insert_ne _ "Properties" "Name") by done.
  rewrite !lookup_insert_eq. simpl.
  unfold str_split1. by rewrite split_first_app.
Qed.

(** C3, as stated, fails: a block whose namespace holds a [:] is encoded
    under the name [a:b:c], which decoding splits at its first [:]. *)
Lemma block_round_trip_counterexample :
  _decode_palette (_encode_palette [colon_block])
  = Ok [mkBlock "a" "b:c" ∅]
  ∧ _decode_palette (_encode_palette [colon_block]) ≠ Ok [colon_block].
Proof.
  assert (_decode_palette (_encode_palette [colon_block])
          = Ok [mkBlock "a" "b:c" ∅]) as Heq by (by vm_compute).
  split; [done|]. rewrite Heq. intros H. discriminate H.
Qed.

(** C3, amended: for every list of blocks whose namespaces hold no [:],
    encoding the list with [_encode_palette] and decoding the result with
    [_decode_palette] gives the list back: the same namespaces, base names
    and property maps. *)
Theorem block_round_trip (blockstates : list Block) :
  Forall (λ b, str_contains colon (namespace b) = false) blockstates →
  _decode_palette (_encode_palette blockstates) = Ok blockstates.
Proof.
  intros Hns. unfold _decode_palette, _encode_palette.
  apply traverse_Ok. apply Forall2_fmap_l, Forall_Forall2_diag.
  eapply list.Forall_impl; [exact Hns|].
  intros b Hb. by apply decode_encode_entry.
Qed.

Lemma block_round_trip_witness :
  _decode_palette (_encode_palette [air; oak_log]) = Ok [air; oak_log].
Proof.
  apply (block_round_trip [air; oak_log]).
  repeat constructor.
Defined.

Lemma decode_entry_no_separator (m : gmap string tag) (name : string) :
  m !! "Name" = Some (TAG_String name) →
  str_contains colon name = false →
  decode_palette_entry (TAG_Compound m) = Raise not_enough_values.
Proof.
  intros Hm Hname. unfold decode_palette_entry, getitem. rewrite Hm. simpl.
  unfold str_split1. by rewrite split_first_None.
Qed.

Lemma unpack2_not_FormatError (l : list string) : unpack2 l ≠ Raise FormatError.
Proof. by destruct l as [|a [|b [|c l]]]. Qed.

Lemma decode_entry_not_FormatError (entry : tag) :
  decode_palette_entry entry ≠ Raise FormatError.
Proof.
  destruct entry as [| | | | |m]; try done. unfold decode_palette_entry, getitem.
  destruct (m !! "Name") as [[|s| | | |]|]; try done. simpl.
  pose proof (unpack2_not_FormatError (str_split1 colon s)) as Hu.
  destruct (unpack2 (str_split1 colon s)) as [[ns bn]|e]; simpl.
  - by destruct (default _ _).
  - congruence.
Qed.

Lemma decode_palette_not_FormatError (palette : tag) :
  _decode_palette palette ≠ Raise FormatError.
Proof.
  destruct palette as [| | | |entries|]; try done. simpl.
  intros (entry & _ & He)%traverse_Raise.
  by apply decode_entry_not_FormatError in He.
Qed.

(** C7, as stated, fails: the entry named [stone] makes decoding raise the
    [ValueError] of Python's tuple unpacking, not a [FormatError]. *)
Lemma decode_palette_counterexample :
  _decode_palette (TAG_List [stone_entry]) = Raise not_enough_values
  ∧ _decode_palette (TAG_List [stone_entry]) ≠ Raise FormatError.
Proof.
  assert (_decode_palette (TAG_List [stone_entry]) = Raise not_enough_values)
    as Heq by (by vm_compute).
  split; [done|]. rewrite Heq. intros H. discriminate H.
Qed.

(** C7, amended: decoding a section palette that holds an entry whose [Name]
    has no [:] raises an exception, so no palette is returned; the exception
    is not a [FormatError], and it is the [ValueError] of tuple unpacking when
    the entries before that one decode. *)
Theorem decode_palette_missing_separator
    (entries : list tag) (m : gmap string tag) (name : string) :
  TAG_Compound m ∈ entries →
  m !! "Name" = Some (TAG_String name) →
  str_contains colon name = false →
  ∃ e, _decode_palette (TAG_List entries) = Raise e
       ∧ e ≠ FormatError
       ∧ ∀ before after blocks,
           entries = before ++ TAG_Compound m :: after →
           traverse decode_palette_entry before = Ok blocks →
           e = not_enough_values.
Proof.
  intros Hin Hm Hname.
  pose proof (decode_entry_no_separator m name Hm Hname) as Hentry.
  destruct (traverse_raises decode_palette_entry entries _ Hin) as [e He];
    [by eexists|].
  exists e. split; [done|]. split.
  - intros ->. by apply (decode_palette_not_FormatError (TAG_List entries)).
  - intros before after blocks -> Hbefore.
    rewrite traverse_app, Hbefore in He.
    cbn [mbind result_bind traverse] in He.
    rewrite Hentry in He. cbn [mbind result_bind] in He. congruence.
Qed.

Lemma decode_palette_missing_separator_witness :
  ∃ e, _decode_palette (TAG_List [encode_palette_entry air; stone_entry]) = Raise e
       ∧ e ≠ FormatError
       ∧ ∀ before after blocks,
           [encode_palette_entry air; stone_entry]
           = before ++ stone_entry :: after →
           traverse decode_palette_entry before = Ok blocks →
           e = not_enough_values.
Proof.
  apply (decode_palette_missing_separator
           [encode_palette_entry air; stone_entry]
           {[ "Name" := TAG_String "stone" ]} "stone").
  - apply list_elem_of_In. right. left. reflexivity.
  - reflexivity.
  - reflexivity.
Defined.

(** ** [clone] *)

Section clone_properties.
Context {World Box SubChunk BlockArray : Type}.
Context (box_shape : Box → Z * Z * Z).
Context (get_sub_chunks : World → Box → list SubChunk).
Context (get_blocks : World → SubChunk → BlockArray).
Context (set_blocks : World → SubChunk → BlockArray → World).

#[local] Abbreviation check := (check_shape box_shape).
#[local] Abbreviation differ := (shapes_differ box_shape).
#[local] Abbreviation copy := (copy_box get_sub_chunks get_blocks set_blocks).

Lemma check_shapes_Ok (pairs : list (Box * Box)) (w : World) :
  Forall (λ pair, ¬ differ pair) pairs →
  for_stmt pairs check w = (w, Ok ()).
Proof.
  induction 1 as [|[source target] pairs Hp _ IH]; [done|].
  unfold shapes_differ in Hp. simpl in *. unfold seq_stmt.
  rewrite decide_False by done. unfold pass at 1. exact IH.
Qed.

Lemma check_shapes_Raise (pairs : list (Box * Box)) (w : World) :
  Exists differ pairs →
  for_stmt pairs check w = (w, Raise shape_mismatch).
Proof.
  induction pairs as [|[source target] pairs IH]; [by inversion 1|].
  intros Hex. simpl. unfold seq_stmt.
  destruct (decide (box_shape source ≠ box_shape target)) as [Hne|Heq]; [done|].
  unfold pass at 1. apply IH.
  apply Exists_cons in Hex as [Hhd|Htl]; [|done].
  unfold shapes_differ in Hhd. simpl in Hhd. done.
Qed.

Lemma for_stmt_returns {A} (l : list A) (body : A → stmt ()) (w : World) :
  (∀ x w, ∃ w', body x w = (w', Ok ())) →
  ∃ w', for_stmt l body w = (w', Ok ()).
Proof.
  intros Hbody. revert w. induction l as [|x l IH]; intros w; simpl.
  - by exists w.
  - unfold seq_stmt. destruct (Hbody x w) as [w1 ->]. apply IH.
Qed.

(** The copying loop of lines 18 to 24 raises nothing. *)
Lemma copy_returns (pairs : list (Box * Box)) (w : World) :
  ∃ w', for_stmt pairs copy w = (w', Ok ()).
Proof.
  apply for_stmt_returns. intros [source target] w0.
  unfold copy_box, seq_stmt, read. apply for_stmt_returns.
  intros [source_selection target_selection] w1. by eexists.
Qed.

(** C10: [clone] validates before it writes. When the two selections have
    different numbers of sub-boxes, or the same number and two corresponding
    sub-boxes of different shapes, [clone] raises the matching exception and
    the world is the one it was called on; and whenever [clone] raises, it
    raises one of these two exceptions and the world is unchanged. *)
Theorem clone_validates_before_writing
    (source_box target_box : list Box) (world : World) :
  let clone := clone box_shape get_sub_chunks get_blocks set_blocks in
  (length source_box ≠ length target_box →
     clone source_box target_box world = (world, Raise source_target_mismatch))
  ∧ (length source_box = length target_box →
     Exists differ (zip source_box target_box) →
     clone source_box target_box world = (world, Raise shape_mismatch))
  ∧ (∀ world' e,
       clone source_box target_box world = (world', Raise e) →
       world' = world
       ∧ (e = source_target_mismatch ∧ length source_box ≠ length target_box
          ∨ e = shape_mismatch ∧ length source_box = length target_box
            ∧ Exists differ (zip source_box target_box))).
Proof.
  intros clone'. subst clone'. unfold clone. split; [|split].
  - intros Hlen. unfold seq_stmt at 1. by rewrite decide_True.
  - intros Hlen Hex. unfold seq_stmt at 1. rewrite decide_False by (by intros ?).
    unfold pass at 1. unfold seq_stmt at 1. by rewrite check_shapes_Raise.
  - intros world' e. unfold seq_stmt at 1.
    destruct (decide (length source_box ≠ length target_box)) as [Hlen|Hlen].
    + intros [= <- <-]. split; [done|]. by left.
    + unfold pass at 1. unfold seq_stmt at 1.
      apply dec_stable in Hlen.
      destruct (decide (Exists differ (zip source_box target_box)))
        as [Hex|Hall].
      * rewrite check_shapes_Raise by done.
        intros [= <- <-]. split; [done|]. by right.
      * rewrite check_shapes_Ok by (by apply Forall_Exists_neg).
        intros Hcopy.
        destruct (copy_returns (zip source_box target_box) world) as [w' Hw'].
        rewrite Hw' in Hcopy. discriminate Hcopy.
Qed.
End clone_properties.

(** ** Arrays: indices and transposition *)

Local Open Scope nat_scope.

Lemma unravel_ravel (s i : nat * nat * nat) :
  in_shape s i → unravel_index s (ravel_index s i) = i.
Proof.
  destruct s as [[d0 d1] d2], i as [[i0 i1] i2]. simpl.
  intros (H0 & H1 & H2).
  assert ((i0 * d1 + i1) * d2 + i2 = i2 + (i0 * d1 + i1) * d2) as Hc by lia.
  assert (((i0 * d1 + i1) * d2 + i2) / d2 = i0 * d1 + i1) as Hq.
  { rewrite Nat.div_add_l by lia. rewrite Nat.div_small by lia. lia. }
  f_equal; [f_equal|].
  - rewrite (Nat.mul_comm d1 d2), <- Nat.Div0.div_div, Hq.
    rewrite Nat.div_add_l by lia. rewrite Nat.div_small by lia. lia.
  - rewrite Hq. replace (i0 * d1 + i1) with (i1 + i0 * d1) by lia.
    rewrite Nat.Div0.mod_add. by apply Nat.mod_small.
  - rewrite Hc, Nat.Div0.mod_add. by apply Nat.mod_small.
Qed.

Lemma unravel_in_shape (s : nat * nat * nat) (t : nat) :
  t < size3 s → in_shape s (unravel_index s t).
Proof.
  destruct s as [[d0 d1] d2]. simpl. intros Ht.
  assert (d1 ≠ 0) as H1 by (intros ->; lia).
  assert (d2 ≠ 0) as H2 by (intros ->; lia).
  split; [|split].
  - apply Nat.Div0.div_lt_upper_bound. nia.
  - by apply Nat.mod_upper_bound.
  - by apply Nat.mod_upper_bound.
Qed.

Lemma ravel_unravel (s : nat * nat * nat) (t : nat) :
  t < size3 s → ravel_index s (unravel_index s t) = t.
Proof.
  destruct s as [[d0 d1] d2]. simpl. intros Ht.
  rewrite (Nat.mul_comm d1 d2), <- Nat.Div0.div_div.
  rewrite (Nat.mul_comm _ d1), <- (Nat.div_mod_eq (t / d2) d1).
  by rewrite (Nat.mul_comm _ d2), <- (Nat.div_mod_eq t d2).
Qed.

Lemma ravel_lt (s i : nat * nat * nat) :
  in_shape s i → ravel_index s i < size3 s.
Proof.
  destruct s as [[d0 d1] d2], i as [[i0 i1] i2]. simpl.
  intros (H0 & H1 & H2).
  assert ((i0 + 1) * d1 ≤ d0 * d1) as Hrow
    by (apply Nat.mul_le_mono_r; lia).
  assert ((i0 * d1 + i1 + 1) * d2 ≤ d0 * d1 * d2) as Hplane
    by (apply Nat.mul_le_mono_r; lia).
  lia.
Qed.

Section transpose.
Context {A : Type} `{!Inhabited A}.
Implicit Types a b : ndarray A.

Lemma transpose_shape a (p0 p1 p2 : nat) :
  shape (transpose a (p0, p1, p2))
  = (axis p0 (shape a), axis p1 (shape a), axis p2 (shape a)).
Proof. done. Qed.

Lemma transpose_wf a (axes : nat * nat * nat) : wf_array (transpose a axes).
Proof.
  destruct axes as [[p0 p1] p2]. unfold wf_array. simpl.
  by rewrite length_fmap, length_seq.
Qed.

Lemma transpose_lookup a (axes : nat * nat * nat) (t : nat) :
  t < size3 (shape (transpose a axes)) →
  data (transpose a axes) !! t
  = Some (item a (source_index axes
                    (unravel_index (shape (transpose a axes)) t))).
Proof.
  destruct axes as [[p0 p1] p2]. unfold transpose. cbn [data shape].
  intros Ht. by rewrite list_lookup_fmap, lookup_seq_lt.
Qed.

Lemma transpose_item a (axes i : nat * nat * nat) :
  in_shape (shape (transpose a axes)) i →
  item (transpose a axes) i = item a (source_index axes i).
Proof.
  intros Hi. unfold item at 1. apply list_lookup_total_correct.
  rewrite transpose_lookup by (by apply ravel_lt).
  by rewrite unravel_ravel.
Qed.

(** Two well-formed arrays of one shape with the same items are equal. *)
Lemma ndarray_eq a b :
  wf_array a → wf_array b → shape a = shape b →
  (∀ i, in_shape (shape a) i → item a i = item b i) → a = b.
Proof.
  destruct a as [s da], b as [s' db]. unfold wf_array, item. simpl.
  intros Ha Hb <- Hitems. f_equal.
  apply list_eq_same_length with (size3 s); [done..|].
  intros t x y Ht Hx Hy.
  specialize (Hitems (unravel_index s t) (unravel_in_shape s t Ht)).
  rewrite ravel_unravel in Hitems by done.
  apply list_lookup_total_correct in Hx, Hy. congruence.
Qed.

Lemma transpose_decode_encode a :
  wf_array a → transpose (transpose a (2, 0, 1)) (1, 2, 0) = a.
Proof.
  intros Ha. apply ndarray_eq; [apply transpose_wf|done| |].
  - rewrite !transpose_shape. by destruct (shape a) as [[d0 d1] d2].
  - intros i Hi. rewrite transpose_item by done.
    rewrite !transpose_shape in Hi.
    destruct (shape a) as [[d0 d1] d2] eqn:Hs, i as [[i0 i1] i2].
    simpl in Hi. rewrite transpose_item.
    + done.
    + rewrite transpose_shape, Hs. simpl. lia.
Qed.
(** C2: for every 16 by 16 by 16 array, transposing by the axis order
    [(2, 0, 1)] of decoding and then by the axis order [(1, 2, 0)] of
    encoding gives the array back; decoding places the item [(y, z, x)] of
    the stored array at [(x, y, z)], and encoding puts it back. *)
Theorem transpose_decode_then_encode a :
  wf_array a → shape a = section_shape →
  transpose (transpose a (2, 0, 1)) (1, 2, 0) = a
  ∧ ∀ x y z, x < 16 → y < 16 → z < 16 →
      item (transpose a (2, 0, 1)) (x, y, z) = item a (y, z, x)
      ∧ item (transpose (transpose a (2, 0, 1)) (1, 2, 0)) (y, z, x)
        = item (transpose a (2, 0, 1)) (x, y, z).
Proof.
  intros Ha Hs. split; [by apply transpose_decode_encode|].
  intros x y z Hx Hy Hz.
  assert (item (transpose a (2, 0, 1)) (x, y, z) = item a (y, z, x)) as Hd.
  { rewrite transpose_item; [done|].
    rewrite transpose_shape, Hs. simpl. lia. }
  split; [done|]. by rewrite transpose_decode_encode.
Qed.
End transpose.

Lemma transpose_decode_then_encode_witness :
  (wf_array counting_array ∧ shape counting_array = section_shape)
  ∧ transpose (transpose counting_array (2, 0, 1)) (1, 2, 0) = counting_array.
Proof.
  split; [split; reflexivity|].
  apply (transpose_decode_then_encode counting_array); reflexivity.
Defined.

Local Close Scope nat_scope.

(** ** [numpy.unique] *)

Section np_unique_properties.
Context {A : Type} `{!EqDecision A} (R : relation A) `{!RelDecision R}.
Context `{!TotalOrder R}.
Implicit Types l ar : list A.

Lemma elem_of_keep_changes (prev x : A) l :
  x ∈ keep_changes prev l → x ∈ l.
Proof.
  revert prev. induction l as [|y l IH]; intros prev; simpl; [done|].
  destruct (decide (y = prev)) as [->|Hne].
  - intros Hx. right. by eapply IH.
  - intros [->|Hx]%elem_of_cons; [by left|]. right. by eapply IH.
Qed.

Lemma elem_of_keep_changes_2 (prev x : A) l :
  x ∈ l → x = prev ∨ x ∈ keep_changes prev l.
Proof.
  revert prev. induction l as [|y l IH]; intros prev; simpl.
  - by intros ?%elem_of_nil.
  - intros [->|Hx]%elem_of_cons.
    + destruct (decide (y = prev)); [by left|]. right. by left.
    + destruct (IH y Hx) as [->|Hin].
      * destruct (decide (y = prev)); [by left|]. right. by left.
      * right. destruct (decide (y = prev)); [done|]. by right.
Qed.

Lemma elem_of_uniq_adjacent (x : A) l : x ∈ uniq_adjacent l ↔ x ∈ l.
Proof.
  destruct l as [|y l]; simpl; [done|]. rewrite !elem_of_cons. split.
  - intros [->|Hx]; [by left|]. right. by eapply elem_of_keep_changes.
  - intros [->|Hx]; [by left|]. by apply elem_of_keep_changes_2.
Qed.

Lemma keep_changes_sorted (prev : A) l :
  StronglySorted R (prev :: l) →
  StronglySorted (strict R) (prev :: keep_changes prev l).
Proof.
  revert prev. induction l as [|y l IH]; intros prev Hs; simpl.
  - repeat constructor.
  - apply StronglySorted_cons in Hs as [Hprev Hs].
    apply Forall_cons_1 in Hprev as [Hy Hprev].
    specialize (IH y Hs).
    destruct (decide (y = prev)) as [->|Hne]; [done|].
    assert (strict R prev y) as Hlt by (by apply strict_spec_alt).
    apply StronglySorted_cons. split; [|done].
    apply StronglySorted_cons in IH as [IH _].
    constructor; [done|].
    eapply list.Forall_impl; [exact IH|]. intros z Hz. by trans y.
Qed.

Lemma uniq_adjacent_sorted l :
  StronglySorted R l → StronglySorted (strict R) (uniq_adjacent l).
Proof.
  destruct l as [|x l]; simpl; [constructor|]. apply keep_changes_sorted.
Qed.

Lemma strictly_sorted_NoDup l : StronglySorted (strict R) l → NoDup l.
Proof.
  induction 1 as [|x l _ IH Hx]; constructor; [|done].
  intros Hin. rewrite list.Forall_forall in Hx.
  by apply (irreflexivity (strict R) x), Hx.
Qed.

Lemma index_of_lookup (x : A) l : x ∈ l → l !! index_of x l = Some x.
Proof.
  induction l as [|y l IH]; simpl; [by intros ?%elem_of_nil|].
  intros Hx. destruct (decide (x = y)) as [->|Hne]; [done|].
  apply elem_of_cons in Hx as [?|Hx]; [done|]. by apply IH.
Qed.

Lemma index_of_lt (x : A) l : x ∈ l → (index_of x l < length l)%nat.
Proof. intros Hx. eapply lookup_lt_Some. by apply index_of_lookup. Qed.

(** The first component of [np_unique]: the distinct elements of [ar] in
    strictly increasing order. *)
Lemma np_unique_values ar :
  let u := (np_unique R ar).1 in
  StronglySorted (strict R) u ∧ NoDup u ∧ (∀ x, x ∈ u ↔ x ∈ ar)
  ∧ u = merge_sort R (remove_dups ar)
  ∧ length u = length (remove_dups ar).
Proof.
  simpl.
  assert (StronglySorted (strict R) (uniq_adjacent (merge_sort R ar))) as Hs
    by (apply uniq_adjacent_sorted, StronglySorted_merge_sort; apply _).
  assert (∀ x, x ∈ uniq_adjacent (merge_sort R ar) ↔ x ∈ ar) as Hin.
  { intros x. by rewrite elem_of_uniq_adjacent, merge_sort_Permutation. }
  pose proof (strictly_sorted_NoDup _ Hs) as Hnd.
  assert (uniq_adjacent (merge_sort R ar) ≡ₚ merge_sort R (remove_dups ar))
    as Hperm.
  { apply NoDup_Permutation; [done| |].
    - rewrite merge_sort_Permutation. apply NoDup_remove_dups.
    - intros x. by rewrite Hin, merge_sort_Permutation, elem_of_remove_dups. }
  split; [done|]. split; [done|]. split; [done|]. split.
  - apply (StronglySorted_unique R); [| |done].
    + clear -Hs. induction Hs as [|x l _ IH Hx]; constructor; [done|].
      eapply list.Forall_impl; [exact Hx|]. by intros y [].
    + apply StronglySorted_merge_sort; apply _.
  - by rewrite Hperm, merge_sort_Permutation.
Qed.

(** The second component of [np_unique]: for every position of [ar], the
    position of its element in the first component. *)
Lemma np_unique_inverse ar :
  let '(u, inverse) := np_unique R ar in
  length inverse = length ar
  ∧ ∀ i x, ar !! i = Some x →
      ∃ j, inverse !! i = Some j ∧ u !! j = Some x ∧ (j < length u)%nat.
Proof.
  unfold np_unique. split; [by rewrite length_fmap|].
  intros i x Hi. exists (index_of x (uniq_adjacent (merge_sort R ar))).
  assert (x ∈ uniq_adjacent (merge_sort R ar)) as Hx.
  { rewrite elem_of_uniq_adjacent, merge_sort_Permutation.
    by eapply list_elem_of_lookup_2. }
  rewrite list_lookup_fmap, Hi. split; [done|].
  split; [by apply index_of_lookup|by apply index_of_lt].
Qed.
End np_unique_properties.

(** ** Arrays: element-wise operations and indexing *)

Lemma amap_wf {A B} (f : A → B) (a : ndarray A) :
  wf_array a → wf_array (amap f a).
Proof. unfold wf_array. simpl. by rewrite length_fmap. Qed.

Lemma amap_item {A B} `{!Inhabited A, !Inhabited B}
    (f : A → B) (a : ndarray A) (i : nat * nat * nat) :
  wf_array a → in_shape (shape a) i → item (amap f a) i = f (item a i).
Proof.
  intros Ha Hi. unfold item. simpl.
  apply list_lookup_total_correct. rewrite list_lookup_fmap.
  rewrite (list_lookup_lookup_total_lt (data a)); [done|].
  rewrite Ha. by apply ravel_lt.
Qed.

Lemma reshape_Ok {A} (flat : list A) (s : nat * nat * nat) (a : ndarray A) :
  reshape flat s = Ok a → a = mkArray s flat ∧ wf_array a.
Proof.
  unfold reshape. destruct (decide _) as [Hlen|]; [|done].
  intros [= <-]. done.
Qed.

Lemma getitem_int_nonneg {A} (table : list A) (i : Z) (x : A) :
  0 ≤ i → getitem_int table i = Ok x ↔ table !! Z.to_nat i = Some x.
Proof.
  intros Hi. unfold getitem_int. cbv zeta.
  rewrite (decide_False (P := i < 0)) by lia.
  rewrite (decide_False (P := i < 0)) by lia.
  destruct (table !! Z.to_nat i); split; congruence.
Qed.

Lemma np_take_Ok {A} `{!Inhabited A}
    (table : list A) (a : ndarray Z) (a' : ndarray A) :
  np_take table a = Ok a' →
  shape a' = shape a
  ∧ (wf_array a → wf_array a')
  ∧ (wf_array a → ∀ i, in_shape (shape a) i →
       getitem_int table (item a i) = Ok (item a' i)).
Proof.
  unfold np_take. destruct (traverse _ _) as [d|e] eqn:Hd; [|done].
  simpl. intros [= <-]. simpl. apply traverse_Ok in Hd.
  pose proof (list.Forall2_length _ _ _ Hd) as Hlen.
  split; [done|]. split; [unfold wf_array; simpl; congruence|].
  intros Ha i Hi. unfold item. simpl.
  assert (ravel_index (shape a) i < length (data a))%nat as Hlt
    by (rewrite Ha; by apply ravel_lt).
  eapply (Forall2_lookup_lr _ _ _ _ _ _ Hd).
  - by apply list_lookup_lookup_total_lt.
  - apply list_lookup_lookup_total_lt. by rewrite <- Hlen.
Qed.

(** ** [_decode_blocks] *)

Section decode_blocks_properties.
Context (block_le : relation Block) `{!RelDecision block_le}.
Context (decode_long_array : list Z → Z → Z → bool → result (list Z)).
Context (long_array_format : string).

#[local] Abbreviation read_section' :=
  (read_section decode_long_array long_array_format).
#[local] Abbreviation decode_section' :=
  (decode_section decode_long_array long_array_format).
#[local] Abbreviation decode_sections' :=
  (decode_sections decode_long_array long_array_format).
#[local] Abbreviation section_palettes' :=
  (section_palettes decode_long_array long_array_format).
#[local] Abbreviation _decode_blocks' :=
  (_decode_blocks block_le decode_long_array long_array_format).

(** The array of a section as [add_section] stores it, for the palette
    length [offset] at that point. *)
#[local] Abbreviation shifted offset arr :=
  (transpose (amap (λ v, uint32 (v + offset)) arr) (2, 0, 1)%nat).

Lemma read_section_Some (section : gmap string tag)
    (section_palette : list Block) (arr : ndarray Z) :
  read_section' section = Ok (Some (section_palette, arr)) →
  wf_array arr ∧ shape arr = section_shape
  ∧ Forall (λ v, 0 ≤ v < 2 ^ 32) (data arr).
Proof.
  unfold read_section. destruct (section !! "Palette") as [raw|]; [|done].
  destruct (_decode_palette raw) as [sp|]; [|done]. simpl.
  destruct (_ || _); [|done].
  destruct (getitem section "BlockStates") as [[| | |words| |]|]; try done.
  simpl. destruct (decode_long_array _ _ _ _) as [d|]; [|done]. simpl.
  destruct (reshape _ _) as [a|] eqn:Ha; [|done]. simpl.
  intros [= <- <-]. apply reshape_Ok in Ha as [-> Hwf].
  split; [done|]. split; [done|]. simpl.
  apply Forall_fmap, Forall_true. intros v. unfold uint32. simpl.
  apply Z.mod_pos_bound. lia.
Qed.

Lemma decode_section_Ok (st st' : decode_state) (cy : Z)
    (section : gmap string tag) :
  decode_section' st (cy, section) = Ok st' →
  (read_section' section = Ok None ∧ st' = st)
  ∨ ∃ section_palette arr,
      read_section' section = Ok (Some (section_palette, arr))
      ∧ st' = add_section st cy section_palette arr.
Proof.
  unfold decode_section.
  destruct (read_section' section) as [[[sp arr]|]|]; simpl; [| |done].
  - intros [= <-]. right. by exists sp, arr.
  - intros [= <-]. by left.
Qed.

Lemma decode_loop_invariant (chunk_sections : list (Z * gmap string tag))
    (st0 st : decode_state) :
  for_each decode_section' chunk_sections st0 = Ok st →
  st.2 = st0.2 ++ concat (section_palettes' chunk_sections)
  ∧ (∀ cy, cy ∉ chunk_sections.*1 → st.1 !! cy = st0.1 !! cy)
  ∧ (NoDup chunk_sections.*1 →
     ∀ cy section section_palette arr,
       (cy, section) ∈ chunk_sections →
       read_section' section = Ok (Some (section_palette, arr)) →
       ∃ before after,
         st.2 = before ++ section_palette ++ after
         ∧ st.1 !! cy = Some (shifted (len before) arr)).
Proof.
  revert st0. induction chunk_sections as [|[cy0 section0] rest IH];
    intros st0 Hrun.
  - injection Hrun as <-. simpl. rewrite app_nil_r. split; [done|].
    split; [done|]. intros _ cy section sp arr Hin. by apply elem_of_nil in Hin.
  - cbn [for_each] in Hrun. rewrite fmap_cons. cbn [section_palettes fst].
    destruct (decode_section' st0 (cy0, section0)) as [st1|] eqn:Hstep;
      [|done]. cbn [mbind result_bind] in Hrun.
    destruct (IH st1 Hrun) as (Hpal & Hother & Hsec).
    apply decode_section_Ok in Hstep.
    assert (st1.2 = st0.2 ++
              concat (match read_section' section0 with
                      | Ok (Some (sp, _)) => [sp]
                      | _ => []
                      end)
            ∧ ∀ cy, cy ≠ cy0 → st1.1 !! cy = st0.1 !! cy) as [Hpal1 Hother1].
    { destruct Hstep as [[-> ->]|(sp & arr & -> & ->)].
      - by rewrite app_nil_r.
      - destruct st0 as [blocks0 palette0]. cbn [add_section fst snd concat].
        rewrite app_nil_r.
        split; [done|]. intros cy Hne. by rewrite lookup_insert_ne. }
    split; [|split].
    + rewrite Hpal, Hpal1, <- app_assoc. f_equal.
      destruct (read_section' section0) as [[[sp arr]|]|];
        cbn [concat]; by rewrite ?app_nil_r.
    + intros cy Hcy. apply not_elem_of_cons in Hcy as [Hne Hcy].
      rewrite Hother by done. by apply Hother1.
    + intros Hnd cy section sp arr Hin Hread.
      apply list.NoDup_cons in Hnd as [Hcy0 Hnd].
      apply elem_of_cons in Hin as [[= -> ->]|Hin].
      * destruct Hstep as [[Hnone _]|(sp' & arr' & Hsome & ->)];
          [congruence|].
        rewrite Hread in Hsome. injection Hsome as <- <-.
        exists st0.2, (concat (section_palettes' rest)).
        rewrite Hpal, Hother by done.
        destruct st0 as [blocks0 palette0]. cbn [add_section fst snd].
        by rewrite lookup_insert_eq, app_assoc.
      * destruct (Hsec Hnd cy section sp arr Hin Hread)
          as (before & after & Hst & Hcy).
        by exists before, after.
Qed.

Lemma remap_blocks_Ok (inverse : list Z) (blocks blocks' : gmap Z (ndarray Z)) :
  remap_blocks inverse blocks = Ok blocks' →
  ∀ cy,
    match blocks !! cy with
    | Some arr => ∃ arr', blocks' !! cy = Some arr'
                          ∧ np_take inverse arr = Ok arr'
    | None => blocks' !! cy = None
    end.
Proof.
  unfold remap_blocks. revert blocks'.
  apply (map_fold_weak_ind (λ r m, ∀ m', r = Ok m' → ∀ cy,
           match m !! cy with
           | Some arr => ∃ arr', m' !! cy = Some arr'
                                 ∧ np_take inverse arr = Ok arr'
           | None => m' !! cy = None
           end)).
  - intros m' [= <-] cy. by rewrite !lookup_empty.
  - intros cy0 arr0 m r Hfresh IH m'.
    destruct r as [m0|]; [|done]. simpl.
    destruct (np_take inverse arr0) as [arr0'|] eqn:Htake; [|done]. simpl.
    intros [= <-] cy. specialize (IH m0 eq_refl cy).
    destruct (decide (cy = cy0)) as [->|Hne].
    + rewrite !lookup_insert_eq. by exists arr0'.
    + by rewrite !lookup_insert_ne.
Qed.
Context `{!TotalOrder block_le}.

Lemma np_unique_length_le (palette : list Block) :
  (length (np_unique block_le palette).1 ≤ length palette)%nat.
Proof.
  destruct (np_unique_values block_le palette) as (_ & Hnd & Hin & _).
  apply submseteq_length, NoDup_submseteq; [done|]. intros b. by apply Hin.
Qed.

(** The voxel of a section at [(x, y, z)] after the merge: its local index
    [l] has become a global index holding the block that the section's
    palette holds at [l]. *)
Lemma remapped_voxel (palette before after section_palette : list Block)
    (arr out : ndarray Z) (x y z l : nat) (b : Block) :
  let '(np_palette, inverse) := np_unique block_le palette in
  palette = before ++ section_palette ++ after →
  len palette < 2 ^ 32 →
  wf_array arr → shape arr = section_shape →
  np_take ((λ i, uint32 (Z.of_nat i)) <$> inverse)
    (shifted (len before) arr) = Ok out →
  (x < 16)%nat → (y < 16)%nat → (z < 16)%nat →
  item arr (y, z, x) = Z.of_nat l →
  section_palette !! l = Some b →
  ∃ g, item out (x, y, z) = Z.of_nat g ∧ np_palette !! g = Some b.
Proof.
  pose proof (np_unique_inverse block_le palette) as Hinv.
  pose proof (np_unique_length_le palette) as Hle.
  destruct (np_unique block_le palette) as [np_palette inverse].
  destruct Hinv as [Hlen Hinv]. simpl in Hle.
  intros Hpal Hsmall Hwf Hshape Htake Hx Hy Hz Hl Hb.
  assert (palette !! (length before + l)%nat = Some b) as Hlookup.
  { rewrite Hpal, lookup_app_r by lia.
    replace (length before + l - length before)%nat with l by lia.
    by apply lookup_app_l_Some. }
  destruct (Hinv _ _ Hlookup) as (g & Hg & Hgb & Hglt).
  pose proof (lookup_lt_Some _ _ _ Hlookup) as Hlt.
  unfold len in Hsmall.
  apply np_take_Ok in Htake as (Hshape' & _ & Hitems).
  assert (in_shape (shape (shifted (len before) arr)) (x, y, z)) as Hxyz.
  { rewrite transpose_shape. cbn [amap shape]. rewrite Hshape. simpl. lia. }
  specialize (Hitems (transpose_wf _ _) (x, y, z) Hxyz).
  rewrite transpose_item in Hitems by done.
  change (source_index (2, 0, 1)%nat (x, y, z)) with (y, z, x) in Hitems.
  rewrite amap_item in Hitems by (rewrite ?Hshape; simpl; done || lia).
  rewrite Hl in Hitems. unfold uint32, len in Hitems.
  rewrite Z.mod_small in Hitems by lia.
  apply getitem_int_nonneg in Hitems; [|lia].
  replace (Z.to_nat (Z.of_nat l + Z.of_nat (length before)))
    with (length before + l)%nat in Hitems by lia.
  rewrite list_lookup_fmap, Hg in Hitems. injection Hitems as Hitems.
  exists g. split; [|done]. rewrite <- Hitems.
  apply Z.mod_small. lia.
Qed.

(** C1: when [_decode_blocks] returns, the returned palette holds exactly
    the distinct blocks of the concatenation of the base palette (air) with
    the palettes of the sections, each once; and in every section every
    voxel whose stored local index [l] is a position of the section's
    palette carries a global index at which the returned palette holds the
    block that the section's palette holds at [l]. The concatenation is
    assumed shorter than [2 ^ 32], the range of the index arrays, and the
    vertical indices of the sections distinct. *)
Theorem decode_blocks_merges_palettes
    (chunk_sections : list (Z * gmap string tag))
    (blocks : gmap Z (ndarray Z)) (np_palette : list Block) :
  _decode_blocks' chunk_sections = Ok (blocks, np_palette) →
  let palette := air :: concat (section_palettes' chunk_sections) in
  NoDup np_palette
  ∧ (∀ b, b ∈ np_palette ↔ b ∈ palette)
  ∧ length np_palette = length (remove_dups palette)
  ∧ (len palette < 2 ^ 32 → NoDup chunk_sections.*1 →
     ∀ cy section section_palette arr,
       (cy, section) ∈ chunk_sections →
       read_section' section = Ok (Some (section_palette, arr)) →
       ∃ offset out,
         (∀ l b, section_palette !! l = Some b →
                 palette !! (offset + l)%nat = Some b)
         ∧ blocks !! cy = Some out
         ∧ shape out = section_shape
         ∧ ∀ x y z l b,
             (x < 16)%nat → (y < 16)%nat → (z < 16)%nat →
             item arr (y, z, x) = Z.of_nat l →
             section_palette !! l = Some b →
             ∃ g, item out (x, y, z) = Z.of_nat g
                  ∧ np_palette !! g = Some b).
Proof.
  unfold _decode_blocks, decode_sections.
  destruct (for_each _ _ _) as [[pre palette]|] eqn:Hloop; [|done].
  cbn [mbind result_bind].
  pose proof (np_unique_values block_le palette) as Hvalues.
  pose proof (remapped_voxel palette) as Hvoxel.
  destruct (np_unique block_le palette) as [u inverse] eqn:Hu.
  destruct (remap_blocks _ _) as [remapped|] eqn:Hremap; [|done].
  cbn [mbind result_bind]. intros [= <- <-].
  apply decode_loop_invariant in Hloop as (Hpal & _ & Hsections).
  simpl in Hpal, Hvalues. subst palette.
  destruct Hvalues as (_ & Hnd & Hin & _ & Hlen).
  cbv zeta. split; [done|]. split; [done|]. split; [done|].
  intros Hsmall Hkeys cy section sp arr Hcy Hread.
  destruct (Hsections Hkeys cy section sp arr Hcy Hread)
    as (before & after & Hsplit & Hpre).
  cbn [fst snd] in Hsplit, Hpre.
  pose proof (remap_blocks_Ok _ _ _ Hremap cy) as Hout.
  rewrite Hpre in Hout. destruct Hout as (out & Hout & Htake).
  destruct (read_section_Some _ _ _ Hread) as (Hwf & Hshape & _).
  exists (length before), out. split; [|split; [done|split]].
  - intros l b Hb. rewrite Hsplit, lookup_app_r by lia.
    replace (length before + l - length before)%nat with l by lia.
    by apply lookup_app_l_Some.
  - apply np_take_Ok in Htake as (-> & _). rewrite transpose_shape.
    simpl. by rewrite Hshape.
  - intros x y z l b Hx Hy Hz Hl Hb.
    by apply (Hvoxel before after sp arr out x y z l b).
Qed.
End decode_blocks_properties.

Lemma example_decode_blocks :
  ∃ blocks,
    _decode_blocks block_key_le alternating_decoder "compact" example_sections
    = Ok (blocks, [air; stone]).
Proof. eexists. vm_compute. reflexivity. Qed.

Lemma decode_blocks_merges_palettes_witness :
  ∃ blocks np_palette,
    _decode_blocks block_key_le alternating_decoder "compact" example_sections
    = Ok (blocks, np_palette)
    ∧ NoDup np_palette
    ∧ (∀ b, b ∈ np_palette ↔ b ∈ [air; stone; air])
    ∧ length np_palette = length (remove_dups [air; stone; air]).
Proof.
  destruct (_decode_blocks block_key_le alternating_decoder "compact"
              example_sections) as [[blocks np_palette]|e] eqn:Hrun.
  - exists blocks, np_palette. split; [reflexivity|].
    pose proof (decode_blocks_merges_palettes block_key_le alternating_decoder
                  "compact" example_sections blocks np_palette Hrun) as H.
    destruct H as (Hnd & Hin & Hlen & _).
    split; [exact Hnd|]. split; [exact Hin|exact Hlen].
  - exfalso. destruct example_decode_blocks as [blocks Hblocks].
    rewrite Hblocks in Hrun. discriminate Hrun.
Defined.

Section decode_blocks_order.
Context (block_le : relation Block) `{!RelDecision block_le}.
Context (decode_long_array : list Z → Z → Z → bool → result (list Z)).
Context (long_array_format : string).
Context `{!TotalOrder block_le}.

Lemma strictly_sorted_head (l : list Block) (b : Block) :
  StronglySorted (strict block_le) l → b ∈ l →
  ∃ b0, l !! 0%nat = Some b0 ∧ block_le b0 b.
Proof.
  intros Hs Hb. destruct l as [|b0 l]; [by apply elem_of_nil in Hb|].
  exists b0. split; [done|].
  apply StronglySorted_cons in Hs as [Hall _].
  apply elem_of_cons in Hb as [->|Hb]; [done|].
  rewrite list.Forall_forall in Hall. by apply strict_include, Hall.
Qed.

(** C5: the palette that [_decode_blocks] returns is the sorted list of the
    distinct blocks of the concatenated palettes: its indices follow the
    order of the blocks, strictly increasing, and not the order in which the
    blocks were first seen; so when some block of the concatenation is below
    air in that order, index 0 does not hold air, the first entry of the
    base palette. *)
Theorem decode_blocks_indices_follow_order
    (chunk_sections : list (Z * gmap string tag))
    (blocks : gmap Z (ndarray Z)) (np_palette : list Block) :
  _decode_blocks block_le decode_long_array long_array_format chunk_sections
  = Ok (blocks, np_palette) →
  let palette :=
    air :: concat (section_palettes decode_long_array long_array_format
                     chunk_sections) in
  np_palette = merge_sort block_le (remove_dups palette)
  ∧ StronglySorted (strict block_le) np_palette
  ∧ (∀ i j bi bj, np_palette !! i = Some bi → np_palette !! j = Some bj →
       (i < j)%nat → strict block_le bi bj)
  ∧ (∀ b, b ∈ palette → strict block_le b air →
       ∃ b0, np_palette !! 0%nat = Some b0 ∧ b0 ≠ air).
Proof.
  unfold _decode_blocks, decode_sections.
  destruct (for_each _ _ _) as [[pre palette]|] eqn:Hloop; [|done].
  cbn [mbind result_bind].
  pose proof (np_unique_values block_le palette) as Hvalues.
  destruct (np_unique block_le palette) as [u inverse] eqn:Hu.
  destruct (remap_blocks _ _) as [remapped|] eqn:Hremap; [|done].
  cbn [mbind result_bind]. intros [= <- <-].
  apply decode_loop_invariant in Hloop as (Hpal & _ & _).
  simpl in Hpal, Hvalues. subst palette.
  destruct Hvalues as (Hsorted & Hnd & Hin & Hsort & Hlen).
  cbv zeta. split; [done|]. split; [done|]. split.
  - intros i j bi bj Hi Hj Hij.
    apply lookup_lt_Some in Hi as Hilt.
    rewrite <- (take_drop_middle _ _ _ Hi) in Hsorted, Hj.
    apply StronglySorted_app in Hsorted as (_ & _ & Hsorted).
    apply StronglySorted_cons in Hsorted as [Hall _].
    rewrite list.Forall_forall in Hall. apply Hall.
    rewrite lookup_app_r in Hj by (rewrite length_take; lia).
    rewrite length_take in Hj.
    replace (j - i `min` length u)%nat with (S (j - i - 1)) in Hj by lia.
    by eapply list_elem_of_lookup_2.
  - intros b Hb Hlt. apply Hin in Hb.
    destruct (strictly_sorted_head u b Hsorted Hb) as (b0 & Hb0 & Hle).
    exists b0. split; [done|]. intros ->.
    destruct Hlt as [_ Hlt]. by apply Hlt.
Qed.
End decode_blocks_order.

Lemma example_decode_tnt :
  ∃ blocks,
    _decode_blocks block_key_le alternating_decoder "compact" tnt_sections
    = Ok (blocks, [tnt; air]).
Proof. eexists. vm_compute. reflexivity. Qed.

Lemma decode_blocks_indices_follow_order_witness :
  ∃ blocks np_palette,
    _decode_blocks block_key_le alternating_decoder "compact" tnt_sections
    = Ok (blocks, np_palette)
    ∧ StronglySorted (strict block_key_le) np_palette
    ∧ ∃ b0, np_palette !! 0%nat = Some b0 ∧ b0 ≠ air.
Proof.
  destruct (_decode_blocks block_key_le alternating_decoder "compact"
              tnt_sections) as [[blocks np_palette]|e] eqn:Hrun.
  - exists blocks, np_palette. split; [reflexivity|].
    pose proof (decode_blocks_indices_follow_order block_key_le
                  alternating_decoder "compact" tnt_sections blocks np_palette
                  Hrun) as H.
    destruct H as (_ & Hsorted & _ & Hzero).
    split; [exact Hsorted|]. apply (Hzero tnt).
    + vm_compute. right. right. left.
    + vm_compute. split; [discriminate|]. intros H. by apply H.
  - exfalso. destruct example_decode_tnt as [blocks Hblocks].
    rewrite Hblocks in Hrun. discriminate Hrun.
Defined.

(** ** [_encode_blocks] *)

Lemma transpose_encode_Forall {A} `{!Inhabited A} (P : A → Prop)
    (a : ndarray A) :
  wf_array a → Forall P (data a) → Forall P (data (transpose a (1, 2, 0)%nat)).
Proof.
  intros Ha HP. apply Forall_lookup. intros t x Hx.
  pose proof (lookup_lt_Some _ _ _ Hx) as Ht.
  rewrite (transpose_wf a) in Ht.
  rewrite transpose_lookup in Hx by done. apply (inj Some) in Hx. subst x.
  pose proof (unravel_in_shape _ t Ht) as Hin. revert Hin.
  generalize (unravel_index (shape (transpose a (1, 2, 0)%nat)) t).
  intros [[i0 i1] i2] Hin. rewrite transpose_shape in Hin.
  destruct (shape a) as [[d0 d1] d2] eqn:Hs. simpl in Hin.
  change (source_index (1, 2, 0)%nat (i0, i1, i2)) with (i2, i0, i1).
  rewrite list.Forall_forall in HP. apply HP. unfold item.
  eapply list_elem_of_lookup_2, list_lookup_lookup_total_lt.
  rewrite Ha, Hs.
  apply (ravel_lt (d0, d1, d2) (i2, i0, i1)). simpl. lia.
Qed.

Lemma transpose_length {A} `{!Inhabited A} (a : ndarray A)
    (axes : nat * nat * nat) :
  length (data (transpose a axes)) = size3 (shape (transpose a axes)).
Proof. apply transpose_wf. Qed.

#[local] Instance Z_le_total_order : TotalOrder Z.le.
Proof.
  split; [apply _|]. intros x y. unfold strict.
  destruct (Z.lt_trichotomy x y) as [?|[?|?]]; [left|right; left|right; right];
    lia.
Qed.

(** [numpy.unique] of a non-empty array that holds one value. *)
Lemma np_unique_constant (g : Z) (ar : list Z) :
  ar ≠ [] → Forall (λ v, v = g) ar → (np_unique Z.le ar).1 = [g].
Proof.
  intros Hne Hall.
  destruct (np_unique_values Z.le ar) as (_ & Hnd & Hin & _).
  rewrite list.Forall_forall in Hall.
  destruct (np_unique Z.le ar).1 as [|x [|y u]] eqn:Hu.
  - destruct ar as [|v ar]; [done|].
    exfalso. eapply elem_of_nil, Hin. by left.
  - f_equal. apply Hall, Hin. by left.
  - exfalso. apply list.NoDup_cons in Hnd as [Hx _]. apply Hx.
    rewrite (Hall x) by (apply Hin; by left).
    rewrite (Hall y) by (apply Hin; right; by left). by left.
Qed.

Section encode_blocks_properties.
Context (encode_long_array : list Z → bool → Z → list Z).
Context (long_array_format : string).

#[local] Abbreviation encode_section' :=
  (encode_section encode_long_array long_array_format).

Lemma encode_section_other (blocks : gmap Z (ndarray Z)) (palette : list Block)
    (sections sections' : gmap Z (gmap string tag)) (cy cy' : Z) :
  encode_section' blocks palette sections cy' = Ok sections' →
  cy ≠ cy' → sections' !! cy = sections !! cy.
Proof.
  unfold encode_section. intros Hrun Hne.
  destruct (blocks !! cy') as [sub|]; [|by injection Hrun as <-].
  destruct (np_unique Z.le _) as [sub_palette_ inverse].
  destruct (traverse _ _) as [sub_blocks|]; [|done].
  cbn [mbind result_bind] in Hrun.
  destruct (is_air_palette _); injection Hrun as <-; [done|].
  by rewrite lookup_insert_ne.
Qed.

(** A section that holds one global index, at which the palette holds air,
    is skipped: its iteration leaves [sections] as it was. *)
Lemma encode_section_air (blocks : gmap Z (ndarray Z)) (palette : list Block)
    (sections : gmap Z (gmap string tag)) (cy g : Z) (sub : ndarray Z) :
  blocks !! cy = Some sub →
  wf_array sub → shape sub = section_shape →
  Forall (λ v, v = g) (data sub) →
  getitem_int palette g = Ok air →
  encode_section' blocks palette sections cy = Ok sections.
Proof.
  intros Hsub Hwf Hshape Hall Hair. unfold encode_section. rewrite Hsub.
  assert (ravel (transpose sub (1, 2, 0)%nat) ≠ []) as Hne.
  { unfold ravel. intros Hnil.
    pose proof (transpose_length sub (1, 2, 0)%nat) as Hlen.
    rewrite Hnil, transpose_shape, Hshape in Hlen. discriminate Hlen. }
  assert (Forall (λ v, v = g) (ravel (transpose sub (1, 2, 0)%nat))) as Hall'
    by (by apply transpose_encode_Forall).
  pose proof (np_unique_constant g _ Hne Hall') as Hu.
  destruct (np_unique Z.le (ravel (transpose sub (1, 2, 0)%nat)))
    as [sub_palette_ inverse].
  cbn [fst] in Hu. subst sub_palette_.
  cbn [traverse]. rewrite Hair. reflexivity.
Qed.

(** C6: a section of [blocks] that holds one global index, at which the
    palette holds air, contributes nothing to the encoded sections: after
    [_encode_blocks], [sections] has at its vertical index what it had
    before the call, so no section node when it had none. *)
Theorem encode_blocks_omits_air_section
    (sections sections' : gmap Z (gmap string tag))
    (blocks : gmap Z (ndarray Z)) (palette : list Block)
    (cy_min cy_max cy g : Z) (sub : ndarray Z) :
  _encode_blocks encode_long_array long_array_format
    sections blocks palette cy_min cy_max = Ok sections' →
  blocks !! cy = Some sub →
  wf_array sub → shape sub = section_shape →
  Forall (λ v, v = g) (data sub) →
  getitem_int palette g = Ok air →
  sections' !! cy = sections !! cy
  ∧ (sections !! cy = None → sections' !! cy = None).
Proof.
  intros Hrun Hsub Hwf Hshape Hall Hair.
  enough (sections' !! cy = sections !! cy) as Heq
    by (split; [done|by rewrite Heq]).
  unfold _encode_blocks in Hrun.
  revert sections Hrun.
  induction (seqZ cy_min (cy_max - cy_min)) as [|cy' cys IH];
    intros sections Hrun.
  - by injection Hrun as <-.
  - cbn [for_each] in Hrun.
    destruct (encode_section' blocks palette sections cy') as [sections1|]
      eqn:Hstep; [|done].
    cbn [mbind result_bind] in Hrun. rewrite (IH _ Hrun).
    destruct (decide (cy = cy')) as [<-|Hne].
    + rewrite (encode_section_air _ _ _ cy g sub) in Hstep by done.
      by injection Hstep as <-.
    + by eapply encode_section_other.
Qed.
End encode_blocks_properties.

Lemma example_encode_blocks :
  ∃ sections,
    _encode_blocks plain_encoder "compact" ∅ example_blocks [air; stone] 0 16
    = Ok sections
    ∧ is_Some (sections !! 4).
Proof. eexists. split; [vm_compute; reflexivity|]. vm_compute. by eexists. Qed.

Lemma encode_blocks_omits_air_section_witness :
  ∃ sections,
    _encode_blocks plain_encoder "compact" ∅ example_blocks [air; stone] 0 16
    = Ok sections
    ∧ sections !! 3 = None.
Proof.
  destruct (_encode_blocks plain_encoder "compact" ∅ example_blocks
              [air; stone] 0 16) as [sections|e] eqn:Hrun.
  - exists sections. split; [reflexivity|].
    apply (encode_blocks_omits_air_section plain_encoder "compact"
             ∅ sections example_blocks [air; stone] 0 16 3 0
             (mkArray (16, 16, 16)%nat (replicate 4096 0)) Hrun).
    + reflexivity.
    + reflexivity.
    + reflexivity.
    + apply Forall_replicate. reflexivity.
    + reflexivity.
    + reflexivity.
  - exfalso. destruct example_encode_blocks as (sections & Hsections & _).
    rewrite Hsections in Hrun. discriminate Hrun.
Defined.

(** ** More on palette entries *)

(** What an entry that decodes looks like: a compound whose [Name] is the
    namespace, a [:] and the base name, the namespace holding no [:], and
    whose [Properties], an empty compound when absent, are the block's. *)
Lemma decode_entry_Ok (entry : tag) (block : Block) :
  decode_palette_entry entry = Ok block →
  str_contains colon (namespace block) = false
  ∧ ∃ m,
      entry = TAG_Compound m
      ∧ m !! "Name"
        = Some (TAG_String (namespace block +:+ ":" +:+ base_name block))
      ∧ default (TAG_Compound ∅) (m !! "Properties")
        = TAG_Compound (properties block).
Proof.
  destruct entry as [| | | | |m]; try done.
  unfold decode_palette_entry, getitem.
  destruct (m !! "Name") as [[|name| | | |]|] eqn:Hname; try done.
  cbn [mbind result_bind]. unfold str_split1.
  destruct (split_first colon name) as [[ns bn]|] eqn:Hsplit; [|done].
  cbn [unpack2 mbind result_bind].
  destruct (default (TAG_Compound ∅) (m !! "Properties"))
    as [| | | | |props] eqn:Hprops; try done.
  intros [= <-]. cbn [namespace base_name properties].
  apply split_first_Some in Hsplit as [-> Hns].
  split; [done|]. by exists m.
Qed.

(** X1: a palette that decodes can be encoded again without loss: the
    decoded blocks have no [:] in their namespaces (a name is split at its
    first [:]), and encoding them and decoding the result gives the same
    blocks. *)
Theorem decode_palette_reencode (palette : tag) (blockstates : list Block) :
  _decode_palette palette = Ok blockstates →
  Forall (λ b, str_contains colon (namespace b) = false) blockstates
  ∧ _decode_palette (_encode_palette blockstates) = Ok blockstates.
Proof.
  intros Hdec.
  assert (Forall (λ b, str_contains colon (namespace b) = false) blockstates)
    as Hns.
  { destruct palette as [| | | |entries|]; try done.
    apply traverse_Ok in Hdec.
    induction Hdec as [|entry b entries bs Hentry _ IH]; constructor; [|done].
    by apply decode_entry_Ok in Hentry as [? _]. }
  split; [done|]. by apply block_round_trip.
Qed.

Lemma decode_palette_reencode_witness :
  _decode_palette (TAG_List [TAG_Compound {[ "Name" := TAG_String "a:b:c" ]}])
  = Ok [mkBlock "a" "b:c" ∅]
  ∧ _decode_palette (_encode_palette [mkBlock "a" "b:c" ∅])
    = Ok [mkBlock "a" "b:c" ∅].
Proof.
  split; [reflexivity|].
  apply (decode_palette_reencode
           (TAG_List [TAG_Compound {[ "Name" := TAG_String "a:b:c" ]}])
           [mkBlock "a" "b:c" ∅]).
  reflexivity.
Defined.

(** X2: [_decode_palette] returns one block for every entry, or raises what
    the first entry that fails to decode raises, whatever follows it; an
    entry without a [Name] raises [KeyError]. *)
Theorem decode_palette_first_failure
    (before after : list tag) (bad : tag) (blocks : list Block) (e : exn) :
  traverse decode_palette_entry before = Ok blocks →
  decode_palette_entry bad = Raise e →
  _decode_palette (TAG_List (before ++ bad :: after)) = Raise e
  ∧ _decode_palette (TAG_List before) = Ok blocks
  ∧ length blocks = length before
  ∧ (∀ m, bad = TAG_Compound m → m !! "Name" = None → e = KeyError "Name").
Proof.
  intros Hbefore Hbad. split; [|split; [done|split]].
  - cbn [_decode_palette]. rewrite traverse_app, Hbefore.
    cbn [mbind result_bind traverse]. by rewrite Hbad.
  - by eapply traverse_length.
  - intros m -> Hname. unfold decode_palette_entry, getitem in Hbad.
    rewrite Hname in Hbad. by injection Hbad as <-.
Qed.

Lemma decode_palette_first_failure_witness :
  _decode_palette
    (TAG_List ([encode_palette_entry stone] ++ TAG_Compound ∅ :: [stone_entry]))
  = Raise (KeyError "Name").
Proof.
  apply (decode_palette_first_failure [encode_palette_entry stone] [stone_entry]
           (TAG_Compound ∅) [stone] (KeyError "Name")); reflexivity.
Defined.

Lemma str_contains_app (c : ascii) (a b : string) :
  str_contains c (a +:+ b) = str_contains c a || str_contains c b.
Proof.
  induction a as [|c' a IH]; simpl; [done|]. by rewrite IH, orb_assoc.
Qed.

Lemma split_first_app_l (s rest a b : string) :
  split_first colon s = Some (a, b) →
  split_first colon (s +:+ rest) = Some (a, b +:+ rest).
Proof.
  revert a. induction s as [|c s IH]; intros a; simpl; [done|].
  destruct (decide (c = colon)); [by intros [= <- <-]|].
  destruct (split_first colon s) as [[a' b']|]; simpl; [|done].
  intros [= <- <-]. by rewrite (IH a' eq_refl).
Qed.

Lemma split_first_is_Some (s : string) :
  str_contains colon s = true → is_Some (split_first colon s).
Proof.
  induction s as [|c s IH]; simpl; [done|].
  destruct (decide (c = colon)); [by eexists|].
  rewrite bool_decide_eq_false_2 by done. simpl.
  intros [[a b] ->]%IH. by eexists.
Qed.

(** The only namespace and base name that make the name [minecraft:air]. *)
Lemma air_name (ns bn : string) :
  ns +:+ ":" +:+ bn = "minecraft:air" ↔ ns = "minecraft" ∧ bn = "air".
Proof.
  split; [|by intros [-> ->]].
  intros Heq.
  destruct (str_contains colon ns) eqn:Hns.
  - exfalso. destruct (split_first_is_Some ns Hns) as [[a b] Hsplit].
    apply (split_first_app_l _ (":" +:+ bn)) in Hsplit.
    rewrite Heq in Hsplit. injection Hsplit as <- Hb.
    apply (f_equal (str_contains colon)) in Hb.
    rewrite !str_contains_app in Hb. simpl in Hb.
    rewrite orb_true_r in Hb. discriminate Hb.
  - pose proof (split_first_app ns bn Hns) as Hsplit.
    rewrite Heq in Hsplit. by injection Hsplit as <- <-.
Qed.

(** X3: the test by which [_encode_blocks] skips a section looks at the name
    only: the encoded palette of a list of blocks passes it exactly when the
    list is one block named [minecraft:air], whatever its properties. *)
Theorem air_palette_by_name (blockstates : list Block) :
  is_air_palette (_encode_palette blockstates) = true
  ↔ ∃ props, blockstates = [mkBlock "minecraft" "air" props].
Proof.
  unfold _encode_palette. split.
  - destruct blockstates as [|[ns bn props] [|b' bs]]; try done.
    cbn [fmap list_fmap is_air_palette encode_palette_entry
         namespace base_name properties].
    rewrite lookup_insert_ne, lookup_insert_eq by done.
    intros Hname%bool_decide_eq_true. apply air_name in Hname as [-> ->].
    by exists props.
  - intros [props ->]. reflexivity.
Qed.

(** ** More on [_decode_blocks] *)

Lemma for_each_app {A S} (f : S → A → result S) (l1 l2 : list A) (s : S) :
  for_each f (l1 ++ l2) s = s' ← for_each f l1 s; for_each f l2 s'.
Proof.
  revert s. induction l1 as [|x l1 IH]; intros s; [done|].
  cbn [app for_each]. destruct (f s x) as [s1|e]; [|done].
  cbn [mbind result_bind]. apply IH.
Qed.

Lemma getitem_int_elem {A} (table : list A) (i : Z) (x : A) :
  getitem_int table i = Ok x → x ∈ table.
Proof.
  unfold getitem_int. cbv zeta. destruct (decide (_ < 0)); [done|].
  destruct (table !! _) as [y|] eqn:Hy; [|done].
  intros [= <-]. by eapply list_elem_of_lookup_2.
Qed.

Lemma np_take_elem {A} (table : list A) (a : ndarray Z) (a' : ndarray A) :
  np_take table a = Ok a' →
  shape a' = shape a ∧ length (data a') = length (data a)
  ∧ Forall (λ x, x ∈ table) (data a').
Proof.
  unfold np_take. destruct (traverse _ _) as [d|e] eqn:Hd; [|done].
  cbn [mbind result_bind]. intros [= <-]. cbn [shape data].
  split; [done|]. split; [by eapply traverse_length|].
  apply traverse_Ok in Hd. clear -Hd.
  induction Hd as [|i x l d Hx _ IH]; constructor; [|done].
  by eapply getitem_int_elem.
Qed.

Section decode_blocks_more.
Context (block_le : relation Block) `{!RelDecision block_le}.
Context (decode_long_array : list Z → Z → Z → bool → result (list Z)).
Context (long_array_format : string).

#[local] Abbreviation read_section' :=
  (read_section decode_long_array long_array_format).
#[local] Abbreviation decode_section' :=
  (decode_section decode_long_array long_array_format).
#[local] Abbreviation _decode_blocks' :=
  (_decode_blocks block_le decode_long_array long_array_format).

Lemma read_section_Palette (section : gmap string tag)
    (r : option (list Block * ndarray Z)) :
  read_section' section = Ok r →
  is_Some r ↔ is_Some (section !! "Palette").
Proof.
  unfold read_section. destruct (section !! "Palette") as [raw|].
  - destruct (_decode_palette raw) as [sp|]; [|done].
    cbn [mbind result_bind]. destruct (_ || _); [|done].
    destruct (getitem section "BlockStates") as [[| | |words| |]|]; try done.
    cbn [mbind result_bind].
    destruct (decode_long_array _ _ _ _) as [d|]; [|done].
    cbn [mbind result_bind]. destruct (reshape _ _) as [a|]; [|done].
    cbn [mbind result_bind]. intros [= <-]. split; by eexists.
  - intros [= <-]. split; by intros [? ?].
Qed.

(** What the loop of [_decode_blocks] keeps: the sections it has stored are
    those of the sections with a [Palette], each a well-formed 16 by 16 by
    16 array. *)
Lemma decode_loop_blocks (chunk_sections : list (Z * gmap string tag))
    (st0 st : decode_state) :
  for_each decode_section' chunk_sections st0 = Ok st →
  (∀ cy, is_Some (st.1 !! cy) ↔
         is_Some (st0.1 !! cy)
         ∨ ∃ section, (cy, section) ∈ chunk_sections
                      ∧ is_Some (section !! "Palette"))
  ∧ (map_Forall (λ _ a, wf_array a ∧ shape a = section_shape) st0.1 →
     map_Forall (λ _ a, wf_array a ∧ shape a = section_shape) st.1).
Proof.
  revert st0. induction chunk_sections as [|[cy0 section0] rest IH];
    intros st0 Hrun.
  - injection Hrun as <-. split; [|done]. intros cy. split; [by left|].
    intros [?|(section & Hin & _)]; [done|]. by apply elem_of_nil in Hin.
  - cbn [for_each] in Hrun.
    destruct (decode_section' st0 (cy0, section0)) as [st1|] eqn:Hstep;
      [|done]. cbn [mbind result_bind] in Hrun.
    destruct (IH st1 Hrun) as [Hkeys Hwf]. clear IH.
    apply decode_section_Ok in Hstep.
    destruct Hstep as [[Hread ->]|(sp & arr & Hread & ->)].
    + apply read_section_Palette in Hread. split; [|done].
      intros cy. rewrite Hkeys. split.
      * intros [?|(section & Hin & Hp)]; [by left|].
        right. exists section. split; [by right|done].
      * intros [?|(section & Hin & Hp)]; [by left|].
        apply elem_of_cons in Hin as [[= -> ->]|Hin].
        -- apply Hread in Hp. by destruct Hp.
        -- right. by exists section.
    + pose proof Hread as Hsome. apply read_section_Palette in Hsome.
      apply read_section_Some in Hread as (Harr & Hshape & _).
      destruct st0 as [blocks0 palette0]. cbn [add_section fst snd] in *.
      split.
      * intros cy. rewrite Hkeys. cbn [fst]. rewrite lookup_insert_is_Some.
        split.
        -- intros [[->|[_ ?]]|(section & Hin & Hp)].
           ++ right. exists section0. split; [by left|]. apply Hsome. by eexists.
           ++ by left.
           ++ right. exists section. split; [by right|done].
        -- intros [?|(section & Hin & Hp)].
           ++ left. destruct (decide (cy0 = cy)); [by left|by right].
           ++ apply elem_of_cons in Hin as [[= -> ->]|Hin]; [left; by left|].
              right. by exists section.
      * intros Hall. apply Hwf. cbn [fst]. apply map_Forall_insert_2; [|done].
        split; [apply transpose_wf|].
        rewrite transpose_shape. cbn [amap shape]. by rewrite Hshape.
Qed.
End decode_blocks_more.

Section decode_blocks_results.
Context (block_le : relation Block) `{!RelDecision block_le}.
Context (decode_long_array : list Z → Z → Z → bool → result (list Z)).
Context (long_array_format : string).

#[local] Abbreviation read_section' :=
  (read_section decode_long_array long_array_format).
#[local] Abbreviation decode_section' :=
  (decode_section decode_long_array long_array_format).
#[local] Abbreviation _decode_blocks' :=
  (_decode_blocks block_le decode_long_array long_array_format).

(** X4: the sections that [_decode_blocks] returns are those of the sections
    that have a [Palette]; a section without one is skipped. *)
Theorem decode_blocks_keys (chunk_sections : list (Z * gmap string tag))
    (blocks : gmap Z (ndarray Z)) (np_palette : list Block) :
  _decode_blocks' chunk_sections = Ok (blocks, np_palette) →
  ∀ cy, is_Some (blocks !! cy) ↔
        ∃ section, (cy, section) ∈ chunk_sections
                   ∧ is_Some (section !! "Palette").
Proof.
  unfold _decode_blocks, decode_sections.
  destruct (for_each _ _ _) as [[pre palette]|] eqn:Hloop; [|done].
  cbn [mbind result_bind].
  destruct (np_unique block_le palette) as [u inverse].
  destruct (remap_blocks _ _) as [remapped|] eqn:Hremap; [|done].
  cbn [mbind result_bind]. intros [= <- <-] cy.
  apply decode_loop_blocks in Hloop as [Hkeys _]. cbn [fst] in Hkeys.
  pose proof (remap_blocks_Ok _ _ _ Hremap cy) as Hcy.
  assert (is_Some (remapped !! cy) ↔ is_Some (pre !! cy)) as ->.
  { destruct (pre !! cy) as [arr|].
    - destruct Hcy as (out & -> & _). split; by eexists.
    - rewrite Hcy. split; by intros [? ?]. }
  rewrite Hkeys, lookup_empty. split; [|by right].
  intros [[? ?]|?]; done.
Qed.

(** What [_decode_blocks] returns is consistent. *)
Lemma decoded_blocks_valid
    (chunk_sections : list (Z * gmap string tag))
    (blocks : gmap Z (ndarray Z)) (np_palette : list Block) :
  _decode_blocks' chunk_sections = Ok (blocks, np_palette) →
  air ∈ np_palette
  ∧ ∀ cy out, blocks !! cy = Some out →
      wf_array out ∧ shape out = section_shape
      ∧ Forall (λ v, 0 ≤ v < len np_palette) (data out).
Proof.
  unfold _decode_blocks, decode_sections.
  destruct (for_each _ _ _) as [[pre palette]|] eqn:Hloop; [|done].
  cbn [mbind result_bind].
  pose proof (np_unique_inverse block_le palette) as Hinv.
  destruct (np_unique block_le palette) as [u inverse] eqn:Hu.
  destruct Hinv as [Hlen Hinv].
  destruct (remap_blocks _ _) as [remapped|] eqn:Hremap; [|done].
  cbn [mbind result_bind]. intros [= <- <-].
  pose proof Hloop as Hpal.
  apply decode_loop_invariant in Hpal as (Hpal & _ & _).
  apply decode_loop_blocks in Hloop as [_ Hwf]. cbn [fst snd] in *.
  specialize (Hwf (map_Forall_empty _)).
  split.
  - destruct (Hinv 0%nat air) as (j & _ & Hj & _); [by rewrite Hpal|].
    by eapply list_elem_of_lookup_2.
  - intros cy out Hout.
    pose proof (remap_blocks_Ok _ _ _ Hremap cy) as Hcy.
    destruct (pre !! cy) as [arr|] eqn:Harr; [|congruence].
    destruct Hcy as (out' & Hout' & Htake).
    assert (out' = out) as -> by congruence.
    destruct (Hwf cy arr Harr) as [Harrwf Hshape].
    apply np_take_elem in Htake as (Hs & Hl & Hall).
    split; [unfold wf_array; congruence|]. split; [congruence|].
    eapply list.Forall_impl; [exact Hall|]. intros v Hv.
    apply list_elem_of_fmap in Hv as (j & -> & Hj).
    apply list_elem_of_lookup in Hj as [i Hi].
    assert (is_Some (palette !! i)) as [b Hb]
      by (apply lookup_lt_is_Some; rewrite <- Hlen; by eapply lookup_lt_Some).
    destruct (Hinv i b Hb) as (j' & Hj' & _ & Hlt).
    assert (j' = j) as -> by congruence.
    unfold uint32, len. pose proof (Z.mod_pos_bound (Z.of_nat j) (2 ^ 32)).
    pose proof (Z.mod_le (Z.of_nat j) (2 ^ 32)). lia.
Qed.

(** X5: what [_decode_blocks] returns is consistent: the palette holds air,
    and every section is a well-formed 16 by 16 by 16 array whose items are
    indices of the palette. *)
Theorem decode_blocks_indices_valid
    (chunk_sections : list (Z * gmap string tag))
    (blocks : gmap Z (ndarray Z)) (np_palette : list Block) :
  _decode_blocks' chunk_sections = Ok (blocks, np_palette) →
  air ∈ np_palette
  ∧ ∀ cy out, blocks !! cy = Some out →
      wf_array out ∧ shape out = section_shape
      ∧ Forall (λ v, 0 ≤ v < len np_palette) (data out).
Proof. exact (decoded_blocks_valid chunk_sections blocks np_palette). Qed.

(** X6: when no section has a [Palette], and so for no sections at all,
    [_decode_blocks] returns no section and the palette of air alone,
    whatever the long array format. *)
Theorem decode_blocks_without_palettes
    (chunk_sections : list (Z * gmap string tag)) :
  Forall (λ entry, entry.2 !! "Palette" = None) chunk_sections →
  _decode_blocks' chunk_sections = Ok (∅, [air]).
Proof.
  intros Hall. unfold _decode_blocks, decode_sections.
  assert (for_each decode_section' chunk_sections (∅, [air]) = Ok (∅, [air]))
    as ->.
  { induction Hall as [|[cy section] rest Hnone _ IH]; [done|].
    cbn [for_each snd] in *.
    assert (decode_section' (∅, [air]) (cy, section) = Ok (∅, [air])) as ->
      by (unfold decode_section, read_section; by rewrite Hnone).
    exact IH. }
  cbn [mbind result_bind].
  assert (np_unique block_le [air] = ([air], [0%nat])) as ->
    by (by vm_compute).
  unfold remap_blocks. by rewrite map_fold_empty.
Qed.
End decode_blocks_results.

Section decode_blocks_errors.
Context (block_le : relation Block) `{!RelDecision block_le}.
Context (decode_long_array : list Z → Z → Z → bool → result (list Z)).
Context (long_array_format : string).

#[local] Abbreviation read_section' :=
  (read_section decode_long_array long_array_format).
#[local] Abbreviation decode_section' :=
  (decode_section decode_long_array long_array_format).
#[local] Abbreviation _decode_blocks' :=
  (_decode_blocks block_le decode_long_array long_array_format).

(** [_decode_blocks] stops at the first section that cannot be read, with
    the exception of that section. *)
Lemma decode_blocks_first_failure
    (before after : list (Z * gmap string tag)) (cy : Z)
    (section : gmap string tag) (st : decode_state) (e : exn) :
  for_each decode_section' before (∅, [air]) = Ok st →
  read_section' section = Raise e →
  _decode_blocks' (before ++ (cy, section) :: after) = Raise e.
Proof.
  intros Hbefore Hread. unfold _decode_blocks, decode_sections.
  rewrite for_each_app, Hbefore. cbn [mbind result_bind for_each].
  unfold decode_section. by rewrite Hread.
Qed.

(** X7: decoding a chunk is all or nothing. When the sections before one
    decode and that one has a [Palette] that decodes, [_decode_blocks]
    raises, and returns no section at all: [Exception] when the long array
    format is neither ["compact"] nor ["1.16"]; otherwise [KeyError] when
    the section has no [BlockStates], and [ValueError] when the unpacked
    array does not have 4096 entries. *)
Theorem decode_blocks_section_errors
    (before after : list (Z * gmap string tag)) (cy : Z)
    (section : gmap string tag) (st : decode_state)
    (raw_palette : tag) (section_palette : list Block) :
  for_each decode_section' before (∅, [air]) = Ok st →
  section !! "Palette" = Some raw_palette →
  _decode_palette raw_palette = Ok section_palette →
  let run := _decode_blocks' (before ++ (cy, section) :: after) in
  let supported :=
    long_array_format = "compact" ∨ long_array_format = "1.16" in
  (¬ supported → run = Raise (Exception "long_array_format"))
  ∧ (supported → section !! "BlockStates" = None →
     run = Raise (KeyError "BlockStates"))
  ∧ (supported →
     ∀ words d,
       section !! "BlockStates" = Some (TAG_Long_Array words) →
       decode_long_array words 4096
         (bits_per_entry (len section_palette))
         (bool_decide (long_array_format = "compact")) = Ok d →
       length d ≠ 4096%nat →
       run = Raise (ValueError "cannot reshape array")).
Proof.
  intros Hbefore Hpal Hdec run supported. subst run supported.
  assert (∀ e, read_section' section = Raise e →
               _decode_blocks' (before ++ (cy, section) :: after) = Raise e)
    as Hfail by (intros e; by apply decode_blocks_first_failure with st).
  split; [|split].
  - intros Hno. apply Hfail. unfold read_section. rewrite Hpal, Hdec.
    cbn [mbind result_bind].
    destruct (bool_decide_reflect (long_array_format = "compact")) as [?|_];
      [by destruct Hno; left|].
    destruct (bool_decide_reflect (long_array_format = "1.16")) as [?|_];
      [by destruct Hno; right|]. done.
  - intros Hyes Hnone. apply Hfail. unfold read_section, getitem.
    rewrite Hpal, Hdec, Hnone. cbn [mbind result_bind].
    destruct Hyes as [->| ->]; done.
  - intros Hyes words d Hwords Hd Hlen. apply Hfail.
    assert (bool_decide (long_array_format = "compact")
            || bool_decide (long_array_format = "1.16") = true) as Hsup
      by (destruct Hyes as [->| ->]; done).
    unfold read_section, getitem. rewrite Hpal, Hdec, Hwords, Hsup.
    cbn [mbind result_bind]. rewrite Hd. cbn [mbind result_bind].
    unfold reshape. by rewrite decide_False by (by rewrite length_fmap).
Qed.
End decode_blocks_errors.

(** ** More on [_encode_blocks] *)

Lemma getitem_int_Raise {A} (table : list A) (i : Z) (e : exn) :
  getitem_int table i = Raise e → e = IndexError.
Proof.
  unfold getitem_int. cbv zeta. destruct (decide (_ < 0)); [by intros [= <-]|].
  destruct (table !! _); [done|by intros [= <-]].
Qed.

Lemma getitem_int_in_range {A} (table : list A) (i : Z) :
  0 ≤ i < len table → ∃ x, getitem_int table i = Ok x.
Proof.
  unfold len. intros Hi.
  destruct (lookup_lt_is_Some_2 table (Z.to_nat i)) as [x Hx]; [lia|].
  exists x. by apply getitem_int_nonneg; [lia|].
Qed.

Lemma traverse_returns {A B} (f : A → result B) (l : list A) :
  Forall (λ x, ∃ y, f x = Ok y) l → ∃ ys, traverse f l = Ok ys.
Proof.
  induction 1 as [|x l [y Hy] _ [ys IH]]; [by eexists|].
  exists (y :: ys). cbn [traverse]. by rewrite Hy, IH.
Qed.

Section encode_blocks_more.
Context (encode_long_array : list Z → bool → Z → list Z).
Context (long_array_format : string).

#[local] Abbreviation encode_section' :=
  (encode_section encode_long_array long_array_format).
#[local] Abbreviation _encode_blocks' :=
  (_encode_blocks encode_long_array long_array_format).

Lemma encode_section_Raise (blocks : gmap Z (ndarray Z)) (palette : list Block)
    (sections : gmap Z (gmap string tag)) (cy : Z) (e : exn) :
  encode_section' blocks palette sections cy = Raise e → e = IndexError.
Proof.
  unfold encode_section. destruct (blocks !! cy) as [sub|]; [|done].
  destruct (np_unique Z.le _) as [values inverse].
  destruct (traverse _ _) as [sub_blocks|e'] eqn:Htr.
  - cbn [mbind result_bind]. by destruct (is_air_palette _).
  - cbn [mbind result_bind]. intros [= <-].
    apply traverse_Raise in Htr as (v & _ & Hv).
    by eapply getitem_int_Raise.
Qed.

Lemma encode_section_returns (blocks : gmap Z (ndarray Z))
    (palette : list Block) (sections : gmap Z (gmap string tag)) (cy : Z) :
  (∀ sub, blocks !! cy = Some sub →
          wf_array sub ∧ Forall (λ v, 0 ≤ v < len palette) (data sub)) →
  ∃ sections', encode_section' blocks palette sections cy = Ok sections'.
Proof.
  intros Hvalid. unfold encode_section.
  destruct (blocks !! cy) as [sub|]; [|by eexists].
  destruct (Hvalid sub eq_refl) as [Hwf Hall].
  pose proof (np_unique_values Z.le (ravel (transpose sub (1, 2, 0)%nat)))
    as (_ & _ & Hin & _).
  destruct (np_unique Z.le _) as [values inverse]. cbn [fst] in Hin.
  destruct (traverse_returns (getitem_int palette) values) as [bs ->].
  - apply list.Forall_forall. intros v Hv. apply getitem_int_in_range.
    apply Hin in Hv. revert v Hv. apply list.Forall_forall.
    unfold ravel. by apply transpose_encode_Forall.
  - cbn [mbind result_bind]. destruct (is_air_palette _); by eexists.
Qed.

(** The outcomes of [_encode_blocks]. *)
Lemma encode_blocks_outcomes
    (sections : gmap Z (gmap string tag)) (blocks : gmap Z (ndarray Z))
    (palette : list Block) (cy_min cy_max : Z) :
  (∀ e, _encode_blocks' sections blocks palette cy_min cy_max = Raise e →
        e = IndexError)
  ∧ ((∀ cy sub, cy_min ≤ cy < cy_max → blocks !! cy = Some sub →
        wf_array sub ∧ Forall (λ v, 0 ≤ v < len palette) (data sub)) →
     ∃ sections',
       _encode_blocks' sections blocks palette cy_min cy_max = Ok sections').
Proof.
  unfold _encode_blocks. split.
  - generalize (seqZ cy_min (cy_max - cy_min)). intros cys. revert sections.
    induction cys as [|cy cys IH]; intros sections e; [done|].
    cbn [for_each].
    destruct (encode_section' blocks palette sections cy) as [s1|e1] eqn:Hstep.
    + cbn [mbind result_bind]. apply IH.
    + cbn [mbind result_bind]. intros [= <-].
      by eapply encode_section_Raise.
  - intros Hvalid.
    assert (Forall (λ cy, cy_min ≤ cy < cy_max) (seqZ cy_min (cy_max - cy_min)))
      as Hrange.
    { apply list.Forall_forall. intros cy Hcy%elem_of_seqZ. lia. }
    revert sections Hrange. generalize (seqZ cy_min (cy_max - cy_min)).
    intros cys. induction cys as [|cy cys IH]; intros sections Hrange;
      [by eexists|].
    apply Forall_cons_1 in Hrange as [Hcy Hrange]. cbn [for_each].
    destruct (encode_section_returns blocks palette sections cy) as [s1 ->].
    + intros sub Hsub. by apply (Hvalid cy).
    + cbn [mbind result_bind]. by apply IH.
Qed.

(** X9: [_encode_blocks] raises nothing but [IndexError], and it raises
    nothing at all when the sections of the range are well-formed arrays of
    indices of the palette. *)
Theorem encode_blocks_errors
    (sections : gmap Z (gmap string tag)) (blocks : gmap Z (ndarray Z))
    (palette : list Block) (cy_min cy_max : Z) :
  (∀ e, _encode_blocks' sections blocks palette cy_min cy_max = Raise e →
        e = IndexError)
  ∧ ((∀ cy sub, cy_min ≤ cy < cy_max → blocks !! cy = Some sub →
        wf_array sub ∧ Forall (λ v, 0 ≤ v < len palette) (data sub)) →
     ∃ sections',
       _encode_blocks' sections blocks palette cy_min cy_max = Ok sections').
Proof. exact (encode_blocks_outcomes sections blocks palette cy_min cy_max). Qed.
End encode_blocks_more.

Section encode_frame.
Context (encode_long_array : list Z → bool → Z → list Z).
Context (long_array_format : string).

#[local] Abbreviation encode_section' :=
  (encode_section encode_long_array long_array_format).
#[local] Abbreviation _encode_blocks' :=
  (_encode_blocks encode_long_array long_array_format).

(** The part of a section node that encoding may write. *)
#[local] Abbreviation block_states inverse dense :=
  (TAG_Long_Array (encode_long_array (Z.of_nat <$> inverse) dense 4)).

(** What one iteration writes for a section of [blocks] that is there. *)
Lemma encode_section_Some (blocks : gmap Z (ndarray Z)) (palette : list Block)
    (sections sections' : gmap Z (gmap string tag)) (cy : Z)
    (sub : ndarray Z) :
  blocks !! cy = Some sub →
  encode_section' blocks palette sections cy = Ok sections' →
  ∃ sub_blocks inverse,
    length inverse = length (ravel (transpose sub (1, 2, 0)%nat))
    ∧ (∀ t v, ravel (transpose sub (1, 2, 0)%nat) !! t = Some v →
         ∃ l b, inverse !! t = Some l ∧ sub_blocks !! l = Some b
                ∧ getitem_int palette v = Ok b)
    ∧ (is_air_palette (_encode_palette sub_blocks) = true
       ∧ sections' = sections
       ∨ is_air_palette (_encode_palette sub_blocks) = false
         ∧ ∃ section,
             sections' = <[cy := section]> sections
             ∧ section !! "Palette" = Some (_encode_palette sub_blocks)
             ∧ (long_array_format = "compact" →
                section !! "BlockStates" = Some (block_states inverse true))
             ∧ (long_array_format = "1.16" →
                section !! "BlockStates" = Some (block_states inverse false))
             ∧ ∀ k, k ≠ "BlockStates" → k ≠ "Palette" →
                 section !! k = default ∅ (sections !! cy) !! k).
Proof.
  intros Hsub. unfold encode_section. rewrite Hsub.
  pose proof (np_unique_inverse Z.le (ravel (transpose sub (1, 2, 0)%nat)))
    as Hinv.
  destruct (np_unique Z.le _) as [values inverse]. destruct Hinv as [Hlen Hinv].
  destruct (traverse _ _) as [sub_blocks|] eqn:Htr; [|done].
  cbn [mbind result_bind]. intros Hrun.
  exists sub_blocks, inverse. split; [done|]. split.
  - intros t v Ht. destruct (Hinv t v Ht) as (l & Hl & Hv & _).
    apply traverse_Ok in Htr.
    destruct (Forall2_lookup_l _ _ _ _ _ Htr Hv) as (b & Hb & Hget).
    by exists l, b.
  - destruct (is_air_palette _) eqn:Hair.
    + left. split; [done|]. by injection Hrun as <-.
    + right. split; [done|]. injection Hrun as <-. eexists. split; [done|].
      split; [by rewrite lookup_insert_eq|]. split; [|split].
      * intros ->. rewrite lookup_insert_ne by done.
        rewrite bool_decide_eq_true_2 by done. by rewrite lookup_insert_eq.
      * intros ->. rewrite lookup_insert_ne by done.
        rewrite bool_decide_eq_false_2 by done.
        rewrite bool_decide_eq_true_2 by done. by rewrite lookup_insert_eq.
      * intros k Hk1 Hk2. rewrite lookup_insert_ne by done.
        repeat case_bool_decide; by rewrite ?lookup_insert_ne.
Qed.

Lemma encode_loop_other (blocks : gmap Z (ndarray Z)) (palette : list Block)
    (cys : list Z) (sections sections' : gmap Z (gmap string tag)) (cy : Z) :
  for_each (encode_section' blocks palette) cys sections = Ok sections' →
  cy ∉ cys ∨ blocks !! cy = None → sections' !! cy = sections !! cy.
Proof.
  revert sections. induction cys as [|cy' cys IH]; intros sections Hrun Hcy.
  - by injection Hrun as <-.
  - cbn [for_each] in Hrun.
    destruct (encode_section' blocks palette sections cy') as [s1|] eqn:Hstep;
      [|done]. cbn [mbind result_bind] in Hrun.
    rewrite (IH s1 Hrun) by (rewrite not_elem_of_cons in Hcy; tauto).
    destruct (decide (cy = cy')) as [<-|Hne];
      [|by eapply encode_section_other].
    destruct Hcy as [Hcy|Hnone]; [by destruct Hcy; left|].
    unfold encode_section in Hstep. rewrite Hnone in Hstep.
    by injection Hstep as <-.
Qed.

(** What [_encode_blocks] does to the node of a section it is given. *)
Lemma encoded_section
    (sections sections' : gmap Z (gmap string tag))
    (blocks : gmap Z (ndarray Z)) (palette : list Block)
    (cy_min cy_max cy : Z) (sub : ndarray Z) :
  _encode_blocks' sections blocks palette cy_min cy_max = Ok sections' →
  cy_min ≤ cy < cy_max →
  blocks !! cy = Some sub →
  ∃ sub_blocks inverse,
    length inverse = length (ravel (transpose sub (1, 2, 0)%nat))
    ∧ (∀ t v, ravel (transpose sub (1, 2, 0)%nat) !! t = Some v →
         ∃ l b, inverse !! t = Some l ∧ sub_blocks !! l = Some b
                ∧ getitem_int palette v = Ok b)
    ∧ (is_air_palette (_encode_palette sub_blocks) = true
       ∧ sections' !! cy = sections !! cy
       ∨ is_air_palette (_encode_palette sub_blocks) = false
         ∧ ∃ section,
             sections' !! cy = Some section
             ∧ section !! "Palette" = Some (_encode_palette sub_blocks)
             ∧ (long_array_format = "compact" →
                section !! "BlockStates" = Some (block_states inverse true))
             ∧ (long_array_format = "1.16" →
                section !! "BlockStates" = Some (block_states inverse false))
             ∧ ∀ k, k ≠ "BlockStates" → k ≠ "Palette" →
                 section !! k = default ∅ (sections !! cy) !! k).
Proof.
  intros Hrun Hcy Hsub. unfold _encode_blocks in Hrun.
  assert (cy ∈ seqZ cy_min (cy_max - cy_min)) as Hin
    by (apply elem_of_seqZ; lia).
  pose proof (NoDup_seqZ cy_min (cy_max - cy_min)) as Hnd.
  apply list_elem_of_split in Hin as (l1 & l2 & Hsplit).
  rewrite Hsplit in Hrun, Hnd.
  apply list.NoDup_app in Hnd as (_ & H1 & H2%list.NoDup_cons).
  rewrite for_each_app in Hrun.
  destruct (for_each _ l1 sections) as [s1|] eqn:Hrun1; [|done].
  cbn [mbind result_bind for_each] in Hrun.
  destruct (encode_section' blocks palette s1 cy) as [s2|] eqn:Hstep; [|done].
  cbn [mbind result_bind] in Hrun.
  assert (s1 !! cy = sections !! cy) as Hs1.
  { eapply encode_loop_other; [done|]. left. intros Hc. apply (H1 cy Hc).
    by left. }
  assert (sections' !! cy = s2 !! cy) as Hs2
    by (eapply encode_loop_other; [done|]; left; tauto).
  destruct (encode_section_Some _ _ _ _ _ _ Hsub Hstep)
    as (sub_blocks & inverse & Hlen & Hplace & Hnode).
  exists sub_blocks, inverse. split; [done|]. split; [done|].
  destruct Hnode as [[Hair ->]|(Hair & section & -> & Hp & Hc & H16 & Hk)].
  - left. split; [done|]. congruence.
  - right. split; [done|]. exists section.
    rewrite Hs2, lookup_insert_eq. split; [done|]. split; [done|].
    split; [done|]. split; [done|]. intros k Hk1 Hk2.
    rewrite <- Hs1. by apply Hk.
Qed.

(** X11: what [_encode_blocks] writes for a section of [blocks] in the range.
    With the section's items in the order of the encoding transposition, it
    computes a local palette and one local index per item such that the
    local palette holds, at the local index of an item, the block that the
    palette holds at the item. When the local palette is air alone the
    section node is left as it was; otherwise the node holds the encoded
    local palette under [Palette] and the packed local indices under
    [BlockStates], dense for the format ["compact"] and not dense for
    ["1.16"], and its other entries are those it had. *)
Theorem encode_blocks_section
    (sections sections' : gmap Z (gmap string tag))
    (blocks : gmap Z (ndarray Z)) (palette : list Block)
    (cy_min cy_max cy : Z) (sub : ndarray Z) :
  _encode_blocks' sections blocks palette cy_min cy_max = Ok sections' →
  cy_min ≤ cy < cy_max →
  blocks !! cy = Some sub →
  ∃ sub_blocks inverse,
    length inverse = length (ravel (transpose sub (1, 2, 0)%nat))
    ∧ (∀ t v, ravel (transpose sub (1, 2, 0)%nat) !! t = Some v →
         ∃ l b, inverse !! t = Some l ∧ sub_blocks !! l = Some b
                ∧ getitem_int palette v = Ok b)
    ∧ (is_air_palette (_encode_palette sub_blocks) = true
       ∧ sections' !! cy = sections !! cy
       ∨ is_air_palette (_encode_palette sub_blocks) = false
         ∧ ∃ section,
             sections' !! cy = Some section
             ∧ section !! "Palette" = Some (_encode_palette sub_blocks)
             ∧ (long_array_format = "compact" →
                section !! "BlockStates" = Some (block_states inverse true))
             ∧ (long_array_format = "1.16" →
                section !! "BlockStates" = Some (block_states inverse false))
             ∧ ∀ k, k ≠ "BlockStates" → k ≠ "Palette" →
                 section !! k = default ∅ (sections !! cy) !! k).
Proof. exact (encoded_section sections sections' blocks palette cy_min cy_max cy sub). Qed.

(** X8: [_encode_blocks] leaves alone what it has no section for: outside
    the range from [cy_min] to [cy_max] and where [blocks] has no section,
    [sections] is unchanged, and no section node is ever removed. *)
Theorem encode_blocks_frame
    (sections sections' : gmap Z (gmap string tag))
    (blocks : gmap Z (ndarray Z)) (palette : list Block)
    (cy_min cy_max : Z) :
  _encode_blocks' sections blocks palette cy_min cy_max = Ok sections' →
  ∀ cy,
    (cy < cy_min ∨ cy_max ≤ cy ∨ blocks !! cy = None →
     sections' !! cy = sections !! cy)
    ∧ (is_Some (sections !! cy) → is_Some (sections' !! cy)).
Proof.
  intros Hrun cy. split.
  - intros Hcy. eapply encode_loop_other; [exact Hrun|].
    destruct Hcy as [?|[?|?]]; [left|left|by right];
      rewrite elem_of_seqZ; lia.
  - intros Hsome.
    destruct (decide (cy_min ≤ cy < cy_max)) as [Hin|Hout].
    + destruct (blocks !! cy) as [sub|] eqn:Hsub.
      * destruct (encoded_section _ _ _ _ _ _ _ _ Hrun Hin Hsub)
          as (? & ? & _ & _ & [[_ ->]|(_ & section & -> & _)]);
          [done|by eexists].
      * erewrite encode_loop_other; [done|exact Hrun|by right].
    + erewrite encode_loop_other; [done|exact Hrun|].
      left. rewrite elem_of_seqZ. lia.
Qed.
End encode_frame.

(** ** Decoding and then encoding *)

Section decode_then_encode.
Context (block_le : relation Block) `{!RelDecision block_le}.
Context `{!TotalOrder block_le}.
Context (decode_long_array : list Z → Z → Z → bool → result (list Z)).
Context (encode_long_array : list Z → bool → Z → list Z).
Context (decode_format encode_format : string).

#[local] Abbreviation _decode_blocks' :=
  (_decode_blocks block_le decode_long_array decode_format).
#[local] Abbreviation _encode_blocks' :=
  (_encode_blocks encode_long_array encode_format).

(** X10: what [_decode_blocks] returns can always be encoded:
    [_encode_blocks] raises nothing on it, for any range and any sections to
    write into. *)
Theorem encode_after_decode_returns
    (chunk_sections : list (Z * gmap string tag))
    (blocks : gmap Z (ndarray Z)) (np_palette : list Block)
    (sections : gmap Z (gmap string tag)) (cy_min cy_max : Z) :
  _decode_blocks' chunk_sections = Ok (blocks, np_palette) →
  ∃ sections',
    _encode_blocks' sections blocks np_palette cy_min cy_max = Ok sections'.
Proof.
  intros Hdec.
  apply (decoded_blocks_valid block_le) in Hdec as [_ Hvalid].
  apply encode_blocks_outcomes. intros cy sub _ Hsub.
  destruct (Hvalid cy sub Hsub) as (Hwf & _ & Hall). done.
Qed.

(** X12: decoding a chunk and encoding the result keeps every block in its
    place. For a section that was read with the palette [section_palette]
    and the stored indices [arr], the section node that [_encode_blocks]
    writes has a local palette and local indices such that, at every stored
    position, the new local palette holds at the new index the block that
    [section_palette] held at the stored index. *)
Theorem decode_then_encode_placement
    (chunk_sections : list (Z * gmap string tag))
    (blocks : gmap Z (ndarray Z)) (np_palette : list Block)
    (sections sections' : gmap Z (gmap string tag)) (cy_min cy_max cy : Z)
    (section : gmap string tag) (section_palette : list Block)
    (arr : ndarray Z) :
  _decode_blocks' chunk_sections = Ok (blocks, np_palette) →
  len (air :: concat (section_palettes decode_long_array decode_format
                        chunk_sections)) < 2 ^ 32 →
  NoDup chunk_sections.*1 →
  (cy, section) ∈ chunk_sections →
  read_section decode_long_array decode_format section
  = Ok (Some (section_palette, arr)) →
  _encode_blocks' sections blocks np_palette cy_min cy_max = Ok sections' →
  cy_min ≤ cy < cy_max →
  ∃ sub_blocks inverse,
    length inverse = 4096%nat
    ∧ (∀ t l b, data arr !! t = Some (Z.of_nat l) →
         section_palette !! l = Some b →
         ∃ l', inverse !! t = Some l' ∧ sub_blocks !! l' = Some b)
    ∧ (is_air_palette (_encode_palette sub_blocks) = true
       ∧ sections' !! cy = sections !! cy
       ∨ is_air_palette (_encode_palette sub_blocks) = false
         ∧ ∃ node,
             sections' !! cy = Some node
             ∧ node !! "Palette" = Some (_encode_palette sub_blocks)
             ∧ (encode_format = "compact" →
                node !! "BlockStates"
                = Some (TAG_Long_Array
                          (encode_long_array (Z.of_nat <$> inverse) true 4)))).
Proof.
  intros Hdec Hsmall Hkeys Hin Hread Henc Hcy.
  destruct (decode_blocks_merges_palettes block_le decode_long_array
              decode_format _ _ _ Hdec)
    as (_ & _ & _ & Hvoxels).
  destruct (Hvoxels Hsmall Hkeys cy section section_palette arr Hin Hread)
    as (offset & out & _ & Hout & Hshape & Hitems).
  apply (decoded_blocks_valid block_le) in Hdec as [_ Hvalid].
  destruct (Hvalid cy out Hout) as (Hwf & _ & _).
  destruct (read_section_Some _ _ _ _ _ Hread) as (Harrwf & Harrshape & _).
  destruct (encoded_section _ _ _ _ _ _ _ _ _ _ Henc Hcy Hout)
    as (sub_blocks & inverse & Hlen & Hplace & Hnode).
  assert (length (ravel (transpose out (1, 2, 0)%nat)) = 4096%nat) as Hflat.
  { unfold ravel. rewrite (transpose_wf out), transpose_shape, Hshape.
    reflexivity. }
  exists sub_blocks, inverse. split; [congruence|]. split.
  - intros t l b Ht Hb.
    pose proof (lookup_lt_Some _ _ _ Ht) as Hlt.
    rewrite Harrwf, Harrshape in Hlt.
    pose proof (unravel_in_shape section_shape t Hlt) as Hidx.
    pose proof (ravel_unravel section_shape t Hlt) as Hravel.
    destruct (unravel_index section_shape t) as [[y z] x] eqn:Hyzx.
    cbn [in_shape section_shape] in Hidx. destruct Hidx as (Hy & Hz & Hx).
    assert (item arr (y, z, x) = Z.of_nat l) as Hl.
    { unfold item. rewrite Harrshape, Hravel.
      by apply list_lookup_total_correct. }
    destruct (Hitems x y z l b Hx Hy Hz Hl Hb) as (g & Hg & Hgb).
    assert (ravel (transpose out (1, 2, 0)%nat) !! t = Some (Z.of_nat g))
      as Hflat_t.
    { unfold ravel. rewrite transpose_lookup
        by (rewrite transpose_shape, Hshape; exact Hlt).
      rewrite transpose_shape, Hshape.
      change (axis 1 section_shape, axis 2 section_shape, axis 0 section_shape)
        with section_shape.
      rewrite Hyzx.
      change (source_index (1, 2, 0)%nat (y, z, x)) with (x, y, z).
      by rewrite Hg. }
    destruct (Hplace t _ Hflat_t) as (l' & b' & Hl' & Hb' & Hget).
    apply getitem_int_nonneg in Hget; [|lia].
    rewrite Nat2Z.id, Hgb in Hget. injection Hget as <-.
    by exists l'.
  - destruct Hnode as [[Hair Hsame]|(Hair & node & Hn & Hp & Hc & _)].
    + left. by split.
    + right. split; [done|]. exists node. by split; [|split].
Qed.
End decode_then_encode.

(** ** Schematic files *)

Lemma foldr_max_gt (c x : Z) (l : list Z) :
  foldr Z.max x l > c ↔ Exists (λ v, v > c) (x :: l).
Proof.
  induction l as [|y l IH]; cbn [foldr].
  - rewrite Exists_cons, Exists_nil. tauto.
  - assert (Z.max y (foldr Z.max x l) > c ↔ y > c ∨ foldr Z.max x l > c)
      as -> by lia.
    rewrite IH, !Exists_cons. tauto.
Qed.

Lemma foldr_max_le (c x : Z) (l : list Z) :
  Forall (λ v, v ≤ c) (x :: l) → foldr Z.max x l ≤ c.
Proof.
  intros Hall. destruct (decide (foldr Z.max x l > c)) as [Hgt|]; [|lia].
  apply foldr_max_gt, list.Exists_exists in Hgt as (v & Hv & Hgt).
  rewrite list.Forall_forall in Hall. specialize (Hall v Hv). lia.
Qed.


Lemma close_base_AddBlocks (w : SchematicWriter) :
  close_base w !! "AddBlocks" = _data w !! "AddBlocks".
Proof. unfold close_base. by rewrite !lookup_insert_ne. Qed.

(** X13: [SchematicWriter.close] writes [AddBlocks] exactly when some block
    id exceeds 255. *)
Theorem close_AddBlocks (w : SchematicWriter) (saved : gmap string tag) :
  SchematicWriter_close w = Ok saved →
  _data w !! "AddBlocks" = None →
  is_Some (saved !! "AddBlocks")
  ↔ Exists (λ v, v > 0xFF) (data (_blocks w)).
Proof.
  unfold SchematicWriter_close, np_max. fold (close_base w).
  destruct (data (_blocks w)) as [|x l] eqn:Hdata; [done|].
  cbn [mbind result_bind]. intros Hrun Hnone.
  rewrite <- foldr_max_gt.
  destruct (decide (foldr Z.max x l > 255)) as [Hgt|Hle].
  - destruct (broadcast_add _ _) as [packed|]; [|done].
    cbn [mbind result_bind] in Hrun. injection Hrun as <-.
    rewrite lookup_insert_eq. split; [done|by eexists].
  - injection Hrun as <-. rewrite close_base_AddBlocks, Hnone.
    split; [by intros [? ?]|done].
Qed.

(** X14: a writer for an empty selection cannot be closed: [numpy.max] of
    the empty block array raises [ValueError]. *)
Theorem close_empty_selection (platform : string)
    (selection_size : nat * nat * nat) (w : SchematicWriter) :
  SchematicWriter_init platform selection_size = Ok w →
  size3 selection_size = 0%nat →
  SchematicWriter_close w
  = Raise (ValueError "zero-size array to reduction operation").
Proof.
  unfold SchematicWriter_init.
  destruct (if bool_decide (platform = "java") then _ else _) as [m|]; [|done].
  cbn [mbind result_bind]. destruct selection_size as [[sx sy] sz].
  intros [= <-] Hsize. unfold SchematicWriter_close, np_max.
  cbn [_blocks data size3] in *. by rewrite Hsize.
Qed.

Lemma int16_small (z : Z) : 0 ≤ z ≤ 32767 → int16 z = z.
Proof.
  intros Hz. unfold int16. change (2 ^ 15) with 32768.
  change (2 ^ 16) with 65536. rewrite Z.mod_small; lia.
Qed.

Lemma land_255 (v : Z) : 0 ≤ v → Z.land v 0xFF = v mod 256.
Proof. intros Hv. change 0xFF with (Z.ones 8). by rewrite Z.land_ones. Qed.

Lemma low_byte_kept (v : Z) :
  0 ≤ v → uint16 (uint8 (uint8 (Z.land v 0xFF))) = v mod 256.
Proof.
  intros Hv. rewrite land_255 by done. unfold uint8, uint16.
  pose proof (Z.mod_pos_bound v 256).
  change (2 ^ 8) with 256. change (2 ^ 16) with 65536.
  rewrite !(Z.mod_small (v mod 256)) by lia. done.
Qed.

Lemma init_Ok (platform : string) (selection_size : nat * nat * nat)
    (w : SchematicWriter) :
  SchematicWriter_init platform selection_size = Ok w →
  (platform = "java" ∧ _materials w = "Alpha"
   ∨ platform = "bedrock" ∧ _materials w = "Pocket")
  ∧ _data w !! "Materials" = Some (TAG_String (_materials w))
  ∧ _data w !! "Width" = Some (TAG_Short (int16 (Z.of_nat selection_size.1.1)))
  ∧ _data w !! "Height" = Some (TAG_Short (int16 (Z.of_nat selection_size.1.2)))
  ∧ _data w !! "Length" = Some (TAG_Short (int16 (Z.of_nat selection_size.2)))
  ∧ _data w !! "AddBlocks" = None
  ∧ _data w !! "Blocks" = None.
Proof.
  unfold SchematicWriter_init. destruct selection_size as [[sx sy] sz].
  destruct (bool_decide_reflect (platform = "java")) as [->|Hj].
  - cbn [mbind result_bind]. intros [= <-]. cbn [_materials _data fst snd].
    split; [by left|].
    repeat split; repeat (rewrite lookup_insert_ne by done);
      by rewrite ?lookup_insert_eq, ?lookup_empty.
  - destruct (bool_decide_reflect (platform = "bedrock")) as [->|Hb]; [|done].
    cbn [mbind result_bind]. intros [= <-]. cbn [_materials _data fst snd].
    split; [by right|].
    repeat split; repeat (rewrite lookup_insert_ne by done);
      by rewrite ?lookup_insert_eq, ?lookup_empty.
Qed.

Lemma reader_blocks_saved (saved : gmap string tag) (platform materials : string)
    (size : nat * nat * nat) (bytes : list Z) :
  platform = "java" ∧ materials = "Alpha"
  ∨ platform = "bedrock" ∧ materials = "Pocket" →
  saved !! "Materials" = Some (TAG_String materials) →
  saved !! "Width" = Some (TAG_Short (Z.of_nat size.1.1)) →
  saved !! "Height" = Some (TAG_Short (Z.of_nat size.1.2)) →
  saved !! "Length" = Some (TAG_Short (Z.of_nat size.2)) →
  saved !! "Blocks" = Some (TAG_Byte_Array bytes) →
  SchematicReader_blocks saved
  = ids ← reader_ids bytes (saved !! "AddBlocks");
    arr ← reshape (uint16 <$> ids) size;
    Ok (platform, arr).
Proof.
  intros Hplatform Hm Hw Hh Hl Hb. destruct size as [[sx sy] sz].
  cbn [fst snd] in *. unfold SchematicReader_blocks, getitem, reader_ids.
  rewrite Hm, Hw, Hh, Hl, Hb.
  destruct Hplatform as [[-> ->]|[-> ->]];
    cbn [from_option id mbind result_bind];
    (destruct (saved !! "AddBlocks") as [[| | |add| |]|]; try done;
     [destruct (broadcast_add1 _ _) as [ids|]; [|done]|];
     cbn [mbind result_bind];
     rewrite decide_True by lia; by rewrite !Nat2Z.id).
Qed.

Lemma close_base_lookups (w w0 : SchematicWriter) (platform : string)
    (size : nat * nat * nat) :
  SchematicWriter_init platform size = Ok w0 →
  _data w = _data w0 →
  Forall (λ d, Z.of_nat d ≤ 32767) [size.1.1; size.1.2; size.2] →
  ∀ saved : gmap string tag,
    (∀ k, k ≠ "AddBlocks" → saved !! k = close_base w !! k) →
    (platform = "java" ∧ _materials w0 = "Alpha"
     ∨ platform = "bedrock" ∧ _materials w0 = "Pocket")
    ∧ saved !! "Materials" = Some (TAG_String (_materials w0))
    ∧ saved !! "Width" = Some (TAG_Short (Z.of_nat size.1.1))
    ∧ saved !! "Height" = Some (TAG_Short (Z.of_nat size.1.2))
    ∧ saved !! "Length" = Some (TAG_Short (Z.of_nat size.2))
    ∧ saved !! "Blocks"
      = Some (byte_array (amap (λ b, uint8 (Z.land b 0xFF)) (_blocks w))).
Proof.
  intros Hinit Hdata Hsize saved Hsaved.
  apply init_Ok in Hinit as (Hp & Hm & Hw & Hh & Hl & _ & _).
  apply Forall_cons_1 in Hsize as [Hx Hsize].
  apply Forall_cons_1 in Hsize as [Hy Hsize].
  apply Forall_cons_1 in Hsize as [Hz _].
  rewrite int16_small in Hw, Hh, Hl by lia.
  split; [done|]. rewrite !Hsaved by done. unfold close_base. rewrite Hdata.
  repeat split; repeat (rewrite lookup_insert_ne by done);
    by rewrite ?lookup_insert_eq.
Qed.

(** Saving and loading block ids up to 255. *)
Lemma round_trip_bytes (platform : string)
    (size : nat * nat * nat) (w0 w : SchematicWriter) :
  SchematicWriter_init platform size = Ok w0 →
  _data w = _data w0 →
  wf_array (_blocks w) → shape (_blocks w) = size →
  size3 size ≠ 0%nat →
  Forall (λ d, Z.of_nat d ≤ 32767) [size.1.1; size.1.2; size.2] →
  Forall (λ v, 0 ≤ v ≤ 0xFF) (data (_blocks w)) →
  ∃ saved,
    SchematicWriter_close w = Ok saved
    ∧ saved !! "AddBlocks" = None
    ∧ SchematicReader_blocks saved = Ok (platform, _blocks w).
Proof.
  intros Hinit Hdata Hwf Hshape Hne Hsize Hids.
  exists (close_base w).
  assert (close_base w !! "AddBlocks" = None) as Hadd.
  { rewrite close_base_AddBlocks, Hdata.
    by apply init_Ok in Hinit as (_ & _ & _ & _ & _ & ? & _). }
  split; [|split; [done|]].
  - unfold SchematicWriter_close, np_max. fold (close_base w).
    destruct (data (_blocks w)) as [|x l] eqn:Hd.
    { unfold wf_array in Hwf. rewrite Hd, Hshape in Hwf. by destruct Hne. }
    cbn [mbind result_bind]. rewrite decide_False; [done|].
    pose proof (foldr_max_le 255 x l) as Hle.
    assert (foldr Z.max x l ≤ 255); [|lia].
    apply Hle. eapply list.Forall_impl; [exact Hids|].
    intros v Hv. cbn beta in *. lia.
  - destruct (close_base_lookups w w0 platform size Hinit Hdata Hsize
                (close_base w) (λ _ _, eq_refl))
      as (Hp & Hm & Hw & Hh & Hl & Hb).
    rewrite (reader_blocks_saved _ platform _ size _ Hp Hm Hw Hh Hl Hb).
    rewrite Hadd. cbn [reader_ids mbind result_bind amap data].
    assert (uint16 <$> (uint16 <$> (uint8 <$>
              ((λ b, uint8 (Z.land b 255)) <$> data (_blocks w))))
            = data (_blocks w)) as ->.
    { rewrite <- !list_fmap_compose.
      rewrite <- (list_fmap_id (data (_blocks w))) at 2.
      apply Forall_fmap_ext. eapply list.Forall_impl; [exact Hids|].
      intros v Hv. cbn beta in Hv. cbn [compose]. unfold uint16 at 1, id.
      rewrite low_byte_kept by lia. change (2 ^ 16) with 65536.
      rewrite (Z.mod_small v 256) by lia. apply Z.mod_small. lia. }
    unfold reshape. rewrite decide_True by (by rewrite <- Hshape).
    cbn [mbind result_bind]. rewrite <- Hshape. by destruct (_blocks w).
Qed.

(** X15: block ids up to 255 survive saving and loading. A writer that was
    created for a platform and a non-empty selection of sides up to 32767,
    and whose block array has the selection's shape and ids from 0 to 255,
    is closed without [AddBlocks], and the reader gets the platform and the
    block array back from what was saved. *)
Theorem schematic_round_trip_bytes (platform : string)
    (size : nat * nat * nat) (w0 w : SchematicWriter) :
  SchematicWriter_init platform size = Ok w0 →
  _data w = _data w0 →
  wf_array (_blocks w) → shape (_blocks w) = size →
  size3 size ≠ 0%nat →
  Forall (λ d, Z.of_nat d ≤ 32767) [size.1.1; size.1.2; size.2] →
  Forall (λ v, 0 ≤ v ≤ 0xFF) (data (_blocks w)) →
  ∃ saved,
    SchematicWriter_close w = Ok saved
    ∧ saved !! "AddBlocks" = None
    ∧ SchematicReader_blocks saved = Ok (platform, _blocks w).
Proof. exact (round_trip_bytes platform size w0 w). Qed.

Lemma shiftr_land_shiftl (x m k : Z) :
  0 ≤ k → Z.shiftr (Z.land x (Z.shiftl m k)) k = Z.land (Z.shiftr x k) m.
Proof.
  intros Hk. apply Z.bits_inj'. intros n Hn.
  rewrite Z.shiftr_spec, !Z.land_spec, Z.shiftr_spec, Z.shiftl_spec by lia.
  by replace (n + k - k) with n by lia.
Qed.

(** The four bits above the low byte of a block id. *)
Lemma high_nibble (v : Z) :
  0 ≤ v ≤ 0xFFF → Z.shiftr (Z.land v 0xF00) 8 = v / 256.
Proof.
  intros Hv. change 0xF00 with (Z.shiftl (Z.ones 4) 8).
  rewrite shiftr_land_shiftl by lia.
  rewrite Z.land_ones, Z.shiftr_div_pow2 by lia.
  change (2 ^ 8) with 256. change (2 ^ 4) with 16.
  apply Z.mod_small. split; [apply Z.div_pos; lia|].
  apply Z.div_lt_upper_bound; lia.
Qed.

(** A byte of [AddBlocks] made of two nibbles gives them back. *)
Lemma nibbles_of_byte (lo hi : Z) :
  0 ≤ lo ≤ 15 → 0 ≤ hi ≤ 15 →
  let byte := uint8 (lo + uint16 (Z.shiftl hi 4)) in
  Z.land byte 0xF = lo ∧ Z.shiftr (Z.land byte 0xF0) 4 = hi.
Proof.
  intros Hlo Hhi. cbv zeta. rewrite Z.shiftl_mul_pow2 by lia.
  change (2 ^ 4) with 16. unfold uint8, uint16.
  change (2 ^ 16) with 65536. change (2 ^ 8) with 256.
  rewrite (Z.mod_small (hi * 16)) by lia.
  rewrite (Z.mod_small (lo + hi * 16)) by lia. split.
  - change 0xF with (Z.ones 4). rewrite Z.land_ones by lia.
    change (2 ^ 4) with 16. rewrite Z.mod_add by lia.
    apply Z.mod_small. lia.
  - change 0xF0 with (Z.shiftl (Z.ones 4) 4).
    rewrite shiftr_land_shiftl by lia.
    rewrite Z.land_ones, Z.shiftr_div_pow2 by lia. change (2 ^ 4) with 16.
    rewrite Z.div_add by lia. rewrite (Z.div_small lo) by lia.
    apply Z.mod_small. lia.
Qed.

(** A block id is its low byte plus its high nibble shifted back. *)
Lemma id_of_parts (v : Z) :
  0 ≤ v ≤ 0xFFF →
  uint16 (uint16 (uint8 (uint8 (Z.land v 0xFF)))
          + uint16 (Z.shiftl (v / 256) 8)) = v.
Proof.
  intros Hv. rewrite low_byte_kept by lia.
  rewrite Z.shiftl_mul_pow2 by lia. change (2 ^ 8) with 256.
  assert (0 ≤ v / 256 < 16) as Hq
    by (split; [apply Z.div_pos; lia|apply Z.div_lt_upper_bound; lia]).
  unfold uint16. change (2 ^ 16) with 65536.
  rewrite (Z.mod_small (v / 256 * 256)) by lia.
  pose proof (Z.div_mod v 256). pose proof (Z.mod_pos_bound v 256).
  rewrite Z.mod_small; lia.
Qed.

Local Open Scope nat_scope.

(** Every second item of a column of [2 * k] items, from item [start]. *)
Lemma slice_column {A} (start k : nat) (d : list A) :
  start < 2 → length d = 2 * k →
  slice_axis0 start (mkArray (2 * k, 1, 1) d)
  = mkArray (k, 1, 1)
      (pairwise (λ x y, if decide (start = 0) then x else y) d).
Proof.
  intros Hstart Hlen. unfold slice_axis0. cbn [shape data].
  assert ((2 * k - start + 1) / 2 = k) as ->.
  { destruct k as [|k]; [by destruct start as [|[|?]]|].
    symmetry. apply (Nat.div_unique _ 2 (S k) (1 - start)); lia. }
  f_equal. revert d Hlen. induction k as [|k IH]; intros d Hlen.
  - by destruct d.
  - destruct d as [|x [|y d]]; [done|simpl in Hlen; lia|].
    cbn [seq fmap list_fmap pairwise].
    rewrite <- fmap_S_seq, <- list_fmap_compose. cbn [mjoin list_join].
    assert (take (1 * 1) (drop ((start + 2 * 0) * (1 * 1)) (x :: y :: d))
            = [if decide (start = 0) then x else y]) as ->
      by (destruct start as [|[|?]]; [done|done|lia]).
    cbn [app]. f_equal.
    rewrite <- (IH d) by (simpl in Hlen; lia).
    f_equal. apply list_fmap_ext. intros _ i _. cbn [compose].
    replace ((start + 2 * S i) * (1 * 1))
      with (S (S ((start + 2 * i) * (1 * 1)))) by lia.
    done.
Qed.

Lemma pairwise_fmap {A B C} (g : A → B) (f : B → B → C) (l : list A) :
  pairwise f (g <$> l) = pairwise (λ x y, f (g x) (g y)) l.
Proof.
  revert l. fix IH 1. intros [|x [|y l]]; [done|done|].
  cbn [fmap list_fmap pairwise]. f_equal. apply IH.
Qed.

Lemma pairwise_zip {A B C D} (f : A → A → B) (g : A → A → C)
    (h : B → C → D) (l : list A) :
  zip_with h (pairwise f l) (pairwise g l)
  = pairwise (λ x y, h (f x y) (g x y)) l.
Proof.
  revert l. fix IH 1. intros [|x [|y l]]; [done|done|].
  cbn [pairwise zip_with]. f_equal. apply IH.
Qed.

Lemma pairwise_length {A B} (f : A → A → B) (l : list A) (k : nat) :
  length l = 2 * k → length (pairwise f l) = k.
Proof.
  revert l. induction k as [|k IH]; intros l Hl.
  - by destruct l.
  - destruct l as [|x [|y l]]; [done|simpl in Hl; lia|].
    cbn [pairwise length]. rewrite IH; [done|]. simpl in Hl. lia.
Qed.

(** Interleaving the two nibbles of the packed bytes gives the nibbles of
    the items back, in order. *)
Lemma interleave_pairwise (nibble : Z → Z) (l : list Z) (k : nat) :
  length l = 2 * k →
  Forall (λ v, (0 ≤ nibble v ≤ 15)%Z) l →
  let bytes :=
    uint8 <$> pairwise (λ x y, nibble x + uint16 (Z.shiftl (nibble y) 4))%Z l in
  interleave ((λ b, Z.land b 0xF) <$> bytes)
    ((λ b, Z.shiftr (Z.land b 0xF0) 4) <$> bytes)
  = nibble <$> l.
Proof.
  cbv zeta. unfold interleave. revert l.
  induction k as [|k IH]; intros l Hl Hall.
  - by destruct l.
  - destruct l as [|x [|y l]]; [done|simpl in Hl; lia|].
    apply Forall_cons_1 in Hall as [Hx Hall].
    apply Forall_cons_1 in Hall as [Hy Hall].
    cbn [pairwise fmap list_fmap zip_with].
    destruct (nibbles_of_byte (nibble x) (nibble y) Hx Hy) as [-> ->].
    cbn [mjoin list_join app]. f_equal. f_equal.
    apply IH; [simpl in Hl; lia|done].
Qed.

Local Close Scope nat_scope.

Lemma fmap_pairwise {A B C} (f : A → A → B) (g : B → C) (l : list A) :
  g <$> pairwise f l = pairwise (λ x y, g (f x y)) l.
Proof.
  revert l. fix IH 1. intros [|x [|y l]]; [done|done|].
  cbn [fmap list_fmap pairwise]. f_equal. apply IH.
Qed.

Lemma zip_with_fmap_same {A B C D} (h : B → C → D) (g1 : A → B) (g2 : A → C)
    (l : list A) :
  zip_with h (g1 <$> l) (g2 <$> l) = (λ x, h (g1 x) (g2 x)) <$> l.
Proof. induction l as [|x l IH]; [done|]. cbn. by rewrite IH. Qed.

(** What [close] packs into [AddBlocks] for a column of [2 * k] blocks: one
    byte for every two blocks, the high bits of the first in its low
    nibble and those of the second in its high nibble. *)
Lemma close_column (w : SchematicWriter) (k : nat) :
  wf_array (_blocks w) → shape (_blocks w) = (2 * k, 1, 1)%nat →
  Exists (λ v, v > 0xFF) (data (_blocks w)) →
  SchematicWriter_close w
  = Ok (<["AddBlocks" :=
            TAG_Byte_Array
              (uint8 <$> pairwise
                 (λ x y, Z.shiftr (Z.land x 0xF00) 8
                         + uint16 (Z.shiftl (Z.shiftr (Z.land y 0xF00) 8) 4))
                 (data (_blocks w)))]> (close_base w)).
Proof.
  intros Hwf Hshape Hbig. unfold SchematicWriter_close, np_max.
  fold (close_base w). destruct (_blocks w) as [s d] eqn:Hblocks.
  cbn [shape data] in *. subst s. unfold wf_array in Hwf.
  cbn [shape data size3] in Hwf.
  destruct d as [|x l] eqn:Hd; [by apply Exists_nil in Hbig|].
  cbn [mbind result_bind]. rewrite decide_True by (by apply foldr_max_gt).
  rewrite <- Hd in *. unfold amap. cbn [shape data].
  rewrite !slice_column by (rewrite ?length_fmap; lia).
  unfold broadcast_add. cbn [shape data].
  rewrite decide_True by done. rewrite decide_True by done.
  cbn [mbind result_bind]. unfold byte_array. cbn [data].
  do 3 f_equal.
  rewrite fmap_pairwise, pairwise_zip, pairwise_fmap. done.
Qed.

(** X16: along a column, block ids up to 4095 survive saving and loading. A
    writer that was created for a platform and a selection of [2 * k] by 1
    by 1 blocks, with [k] at least 1 and [2 * k] at most 32767, and whose
    block array has that shape and ids from 0 to 4095, is closed, and the
    reader gets the platform and the block array back from what was
    saved. *)
Theorem schematic_round_trip_column (platform : string) (k : nat)
    (w0 w : SchematicWriter) :
  SchematicWriter_init platform (2 * k, 1, 1)%nat = Ok w0 →
  _data w = _data w0 →
  wf_array (_blocks w) → shape (_blocks w) = (2 * k, 1, 1)%nat →
  k ≠ 0%nat → Z.of_nat (2 * k) ≤ 32767 →
  Forall (λ v, 0 ≤ v ≤ 0xFFF) (data (_blocks w)) →
  ∃ saved,
    SchematicWriter_close w = Ok saved
    ∧ SchematicReader_blocks saved = Ok (platform, _blocks w).
Proof.
  intros Hinit Hdata Hwf Hshape Hk Hsize Hids.
  assert (Forall (λ d, Z.of_nat d ≤ 32767)
            [(2 * k, 1, 1)%nat.1.1; (2 * k, 1, 1)%nat.1.2; (2 * k, 1, 1)%nat.2])
    as Hsides by (repeat constructor; cbn [fst snd]; lia).
  destruct (decide (Exists (λ v, v > 0xFF) (data (_blocks w)))) as [Hbig|Hsmall].
  - rewrite (close_column w k Hwf Hshape Hbig). eexists. split; [done|].
    set (packed := pairwise _ _).
    destruct (close_base_lookups w w0 platform _ Hinit Hdata Hsides
                (<["AddBlocks" := TAG_Byte_Array (uint8 <$> packed)]>
                   (close_base w)))
      as (Hp & Hm & Hw & Hh & Hl & Hb).
    { intros key Hkey. by rewrite lookup_insert_ne. }
    rewrite (reader_blocks_saved _ platform _ _ _ Hp Hm Hw Hh Hl Hb).
    rewrite lookup_insert_eq. cbn [reader_ids amap data]. subst packed.
    assert (length (data (_blocks w)) = (2 * k)%nat) as Hlen
      by (unfold wf_array in Hwf; rewrite Hwf, Hshape; cbn; lia).
    rewrite (interleave_pairwise (λ v, Z.shiftr (Z.land v 0xF00) 8) _ k Hlen).
    + unfold broadcast_add1.
      rewrite decide_True by (by rewrite !length_fmap).
      cbn [mbind result_bind].
      rewrite <- !list_fmap_compose, zip_with_fmap_same, <- list_fmap_compose.
      assert (∀ l : list Z, Forall (λ v, 0 ≤ v ≤ 0xFFF) l →
                (uint16 ∘ (λ x, (uint16 ∘ uint8 ∘ (λ b, uint8 (Z.land b 255))) x
                   + ((λ n, uint16 (Z.shiftl n 8))
                      ∘ (λ v, Z.shiftr (Z.land v 3840) 8)) x)) <$> l = l) as ->.
      { intros l Hrange. rewrite <- (list_fmap_id l) at 2.
        apply Forall_fmap_ext. eapply list.Forall_impl; [exact Hrange|].
        intros v Hv. cbn beta in Hv. cbn [compose]. unfold id.
        rewrite high_nibble by done. by apply id_of_parts. }
      * unfold reshape. rewrite decide_True by (rewrite Hlen; cbn; lia).
        cbn [mbind result_bind]. rewrite <- Hshape. by destruct (_blocks w).
      * done.
    + eapply list.Forall_impl; [exact Hids|]. intros v Hv. cbn beta in *.
      rewrite high_nibble by done.
      split; [apply Z.div_pos; lia|].
      assert (v / 256 < 16); [apply Z.div_lt_upper_bound; lia|lia].
  - destruct (round_trip_bytes platform _ w0 w Hinit Hdata Hwf Hshape)
      as (saved & Hclose & _ & Hread).
    + cbn. lia.
    + done.
    + apply list.Forall_forall. intros v Hv.
      rewrite list.Forall_forall in Hids. specialize (Hids v Hv).
      destruct (decide (v > 0xFF)) as [Hgt|]; [|lia].
      destruct Hsmall. apply list.Exists_exists. by exists v.
    + by exists saved.
Qed.

(** ** More on [clone] *)


Section clone_effect.
Context {World Box SubChunk BlockArray : Type}.
Context (box_shape : Box → Z * Z * Z).
Context (get_sub_chunks : World → Box → list SubChunk).
Context (get_blocks : World → SubChunk → BlockArray).
Context (set_blocks : World → SubChunk → BlockArray → World).

(** What is assumed of the world: a view reads what was assigned to it,
    assigning to a view changes no other view, and assigning blocks does not
    change which views a sub-box has. *)
Context (get_set : ∀ w v b, get_blocks (set_blocks w v b) v = b).
Context (get_set_other :
  ∀ w v v' b, v ≠ v' → get_blocks (set_blocks w v b) v' = get_blocks w v').
Context (sub_chunks_set :
  ∀ w v b box, get_sub_chunks (set_blocks w v b) box = get_sub_chunks w box).

#[local] Abbreviation assign := (assign_blocks get_blocks set_blocks).
#[local] Abbreviation copy_views :=
  (copy_sub_chunk (World:=World) get_blocks set_blocks).
#[local] Abbreviation copy :=
  (copy_box (Box:=Box) get_sub_chunks get_blocks set_blocks).

Lemma copy_views_foldl (views : list (SubChunk * SubChunk)) (w : World) :
  for_stmt views copy_views w = (foldl assign w views, Ok ()).
Proof.
  revert w. induction views as [|[ss ts] views IH]; intros w; [done|].
  cbn [for_stmt foldl]. unfold seq_stmt at 1.
  unfold copy_sub_chunk, seq_stmt, read, write. apply IH.
Qed.

Lemma sub_chunks_foldl (views : list (SubChunk * SubChunk)) (w : World)
    (box : Box) :
  get_sub_chunks (foldl assign w views) box = get_sub_chunks w box.
Proof.
  revert w. induction views as [|[ss ts] views IH]; intros w; [done|].
  cbn [foldl]. rewrite IH. apply sub_chunks_set.
Qed.

Lemma view_pairs_foldl (views : list (SubChunk * SubChunk)) (w : World)
    (pairs : list (Box * Box)) :
  flat_map (λ '(source, target),
              zip (get_sub_chunks (foldl assign w views) source)
                  (get_sub_chunks (foldl assign w views) target)) pairs
  = flat_map (λ '(source, target),
                zip (get_sub_chunks w source) (get_sub_chunks w target)) pairs.
Proof.
  induction pairs as [|[s t] pairs IH]; [done|]. cbn [flat_map].
  by rewrite IH, !sub_chunks_foldl.
Qed.

Lemma copy_boxes_foldl (pairs : list (Box * Box)) (w : World) :
  for_stmt pairs copy w
  = (foldl assign w
       (flat_map (λ '(source, target),
                    zip (get_sub_chunks w source) (get_sub_chunks w target))
                 pairs), Ok ()).
Proof.
  revert w. induction pairs as [|[source target] pairs IH]; intros w; [done|].
  cbn [for_stmt flat_map]. unfold seq_stmt at 1.
  unfold copy_box at 1, seq_stmt, read. rewrite copy_views_foldl.
  by rewrite IH, foldl_app, view_pairs_foldl.
Qed.

Lemma assign_all (views : list (SubChunk * SubChunk)) (w : World) :
  NoDup views.*2 →
  (∀ ss ts, ss ∈ views.*1 → ts ∈ views.*2 → ss ≠ ts) →
  (∀ ss ts, (ss, ts) ∈ views →
            get_blocks (foldl assign w views) ts = get_blocks w ss)
  ∧ (∀ v, v ∉ views.*2 →
          get_blocks (foldl assign w views) v = get_blocks w v).
Proof.
  revert w. induction views as [|[ss0 ts0] views IH]; intros w Hnd Hdisj.
  - split; [|done]. intros ss ts Hin. by apply elem_of_nil in Hin.
  - rewrite fmap_cons in Hnd. cbn [snd] in Hnd.
    apply list.NoDup_cons in Hnd as [Hts0 Hnd].
    destruct (IH (assign w (ss0, ts0)) Hnd) as [Hcopied Hkept].
    { intros ss ts Hss Hts. apply Hdisj; rewrite fmap_cons; by right. }
    cbn [foldl]. split.
    + intros ss ts [[= -> ->]|Hin]%elem_of_cons.
      * rewrite Hkept by done. apply get_set.
      * rewrite (Hcopied ss ts Hin). unfold assign_blocks. cbn [fst snd].
        apply get_set_other. intros Heq. apply (Hdisj ss ts0); [| |done].
        -- rewrite fmap_cons. right. apply list_elem_of_fmap.
           by exists (ss, ts).
        -- rewrite fmap_cons. by left.
    + intros v Hv. rewrite fmap_cons in Hv. cbn [snd] in Hv.
      apply not_elem_of_cons in Hv as [Hne Hv].
      rewrite (Hkept v Hv). unfold assign_blocks. cbn [fst snd].
      by apply get_set_other.
Qed.

(** X17: what [clone] copies. For selections with as many sub-boxes each and
    equal shapes pair by pair, [clone] returns; when the views it assigns to
    are distinct and none of them is a view it reads from, every assigned
    view then holds the blocks that the view paired with it held before the
    call, and every other view holds what it held. *)
Theorem clone_copies (source_box target_box : list Box) (world : World) :
  length source_box = length target_box →
  Forall (λ pair, box_shape pair.1 = box_shape pair.2)
         (zip source_box target_box) →
  NoDup (view_pairs get_sub_chunks world source_box target_box).*2 →
  (∀ ss ts, ss ∈ (view_pairs get_sub_chunks world source_box target_box).*1 →
            ts ∈ (view_pairs get_sub_chunks world source_box target_box).*2 →
            ss ≠ ts) →
  ∃ world',
    clone box_shape get_sub_chunks get_blocks set_blocks
      source_box target_box world = (world', Ok ())
    ∧ (∀ ss ts,
         (ss, ts) ∈ view_pairs get_sub_chunks world source_box target_box →
         get_blocks world' ts = get_blocks world ss)
    ∧ (∀ v, v ∉ (view_pairs get_sub_chunks world source_box target_box).*2 →
            get_blocks world' v = get_blocks world v).
Proof.
  intros Hlen Hshapes Hnd Hdisj. unfold clone, seq_stmt at 1.
  rewrite decide_False by (by intros ?). unfold pass at 1.
  unfold seq_stmt at 1. rewrite check_shapes_Ok.
  - rewrite copy_boxes_foldl. eexists. split; [done|].
    by apply assign_all.
  - eapply list.Forall_impl; [exact Hshapes|].
    intros [s t] Heq. unfold shapes_differ. cbn [fst snd] in *. by intros ?.
Qed.
End clone_effect.

(** ** [properties_to_string] *)

Lemma split_first_sep_app (sep : ascii) (a b : string) :
  str_contains sep a = false →
  split_first sep (a +:+ String sep "" +:+ b) = Some (a, b).
Proof.
  change (String sep "" +:+ b) with (String sep b).
  induction a as [|c s IH]; simpl.
  - intros _. by rewrite decide_True.
  - intros [Hc Hs]%orb_false_iff. apply bool_decide_eq_false in Hc.
    rewrite decide_False by done. by rewrite IH.
Qed.

Lemma split_first_sep_None (sep : ascii) (s : string) :
  str_contains sep s = false → split_first sep s = None.
Proof.
  induction s as [|c s IH]; simpl; [done|].
  intros [Hc Hs]%orb_false_iff. apply bool_decide_eq_false in Hc.
  rewrite decide_False by done. by rewrite IH.
Qed.

Lemma string_app_assoc (a b c : string) : (a +:+ b) +:+ c = a +:+ (b +:+ c).
Proof.
  induction a as [|x a IH]; [done|].
  change (String x ((a +:+ b) +:+ c) = String x (a +:+ b +:+ c)).
  by rewrite IH.
Qed.

Lemma string_app_nil_r (a : string) : a +:+ "" = a.
Proof.
  induction a as [|x a IH]; [done|].
  change (String x (a +:+ "") = String x a). by rewrite IH.
Qed.


Lemma properties_to_string_cons (item : string * string)
    (props : list (string * string)) :
  properties_to_string (item :: props)
  = item.1 +:+ "=" +:+ item.2
    +:+ match props with
        | [] => ""
        | _ => "," +:+ properties_to_string props
        end.
Proof.
  unfold properties_to_string, format_property. destruct props as [|item' props].
  - cbn [fmap list_fmap str_join fst snd]. by rewrite string_app_nil_r.
  - cbn [fmap list_fmap str_join]. by rewrite !string_app_assoc.
Qed.

(** X18: the string of [properties_to_string] tells the properties: two
    dictionaries of strings whose keys hold no [=] and no [,] and whose
    values hold no [,] have the same string only when they have the same
    items in the same order. *)
Theorem properties_to_string_inj (props1 props2 : list (string * string)) :
  Forall plain_item props1 → Forall plain_item props2 →
  properties_to_string props1 = properties_to_string props2 →
  props1 = props2.
Proof.
  intros H1. revert props2.
  induction H1 as [|[k1 v1] props1 (Hk1 & Hc1 & Hv1) _ IH];
    intros props2 H2 Heq.
  - destruct props2 as [|[k2 v2] props2]; [done|].
    rewrite properties_to_string_cons in Heq. cbn [fst snd] in Heq.
    apply (f_equal (str_contains "="%char)) in Heq.
    rewrite !str_contains_app in Heq. cbn in Heq.
    by rewrite orb_true_r in Heq.
  - destruct H2 as [|[k2 v2] props2 (Hk2 & Hc2 & Hv2) H2].
    { rewrite properties_to_string_cons in Heq. cbn [fst snd] in Heq.
      apply (f_equal (str_contains "="%char)) in Heq.
      rewrite !str_contains_app in Heq. cbn in Heq.
      by rewrite orb_true_r in Heq. }
    cbn [fst snd] in *. rewrite !properties_to_string_cons in Heq.
    cbn [fst snd] in Heq.
    apply (f_equal (split_first "="%char)) in Heq.
    rewrite !(split_first_sep_app "="%char) in Heq by done.
    injection Heq as <- Heq.
    assert (v1 = v2 ∧ props1 = props2) as [<- <-]; [|done].
    destruct props1 as [|item1 props1], H2 as [|item2 props2 Hitem2 H2].
    + rewrite !string_app_nil_r in Heq. done.
    + exfalso. apply (f_equal (str_contains ","%char)) in Heq.
      rewrite string_app_nil_r, str_contains_app, Hv1 in Heq. cbn in Heq.
      by rewrite orb_true_r in Heq.
    + exfalso. apply (f_equal (str_contains ","%char)) in Heq.
      rewrite string_app_nil_r, str_contains_app, Hv2 in Heq. cbn in Heq.
      by rewrite orb_true_r in Heq.
    + apply (f_equal (split_first ","%char)) in Heq.
      rewrite !(split_first_sep_app ","%char) in Heq by done.
      injection Heq as <- Heq. split; [done|].
      apply IH; [by constructor|done].
Qed.
